(** * WasteIsland: a shallow embedding of the slotted-page B+Tree index,
    its pager and the content-addressed [Database] built on top of it.

    Sources: [waste_island/src/btree/node/basic_node.rs],
    [leaf_node.rs], [internal_node.rs], [head_node.rs],
    [waste_island/src/btree/pager.rs], [src/btree/page.rs],
    [src/btree/btree.rs], [waste_island/src/indexer.rs],
    [waste_island/src/database.rs], [src/hash.rs], [src/offset.rs]. *)

From Stdlib Require Import ZArith Lia Ascii String.
From stdpp Require Import base list gmap strings sorting.

Open Scope nat_scope.

(* ================================================================= *)
(** ** BasicNode: the slotted page ([basic_node.rs]) *)
(* ================================================================= *)

(** A page is a typed view in this development: the header [H]
    (node-specific part), the two bytes [records_length] and
    [first_free_record_id], the live part of the slot directory
    (the bytes at offsets [PAGE_HEAD_SIZE .. PAGE_HEAD_SIZE + records_length)),
    and the record heap indexed by [RecordId]: cell [id] holds the bytes at
    [PAGE_SIZE - RECORD_SIZE * (id + 1)].  Offsets into the slot directory are
    written relative to [PAGE_HEAD_SIZE]; [Offset::mid] on absolute offsets
    [(h + l + h + r) / 2 = h + (l + r) / 2] agrees with the relative one. *)

Module BasicNode.

(** A record cell: a free-list entry ([FreeRecord {length, next}]
    written over the first two bytes), a record [Record {key, value}], or
    bytes never written since the page was appended uninitialised. *)
Inductive cell (K V : Type) :=
| Free (length : nat) (next : nat)
| Used (key : K) (value : V)
| Garbage.
Arguments Free {K V} _ _.
Arguments Used {K V} _ _.
Arguments Garbage {K V}.

Record node (H K V : Type) := mk_node {
  hdr : H;
  records_length : nat;          (* u8 *)
  first_free_record_id : nat;    (* RecordId(u8) *)
  slots : list nat;              (* live slot directory, RecordIds in key order *)
  heap : list (cell K V)          (* record heap, cap() cells *)
}.
Arguments mk_node {H K V} _ _ _ _ _.
Arguments hdr {H K V} _.
Arguments records_length {H K V} _.
Arguments first_free_record_id {H K V} _.
Arguments slots {H K V} _.
Arguments heap {H K V} _.

(** [RecordId::invalid()] *)
Definition invalid : nat := 255.

(** [RecordId::offset]: [(self.raw() as isize + offset) as u8]. *)
Definition rid_offset (id off : nat) : nat := (id + off) mod 256.

Section Ops.
Context {H K V : Type}.
(** [K: PartialOrd]: the [<=] used by [lower_bound], and [==]. *)
Variable key_le : K -> K -> bool.
Variable key_eqb : K -> K -> bool.
(** [cap()]: [min((PAGE_SIZE - PAGE_HEAD_SIZE) / (RECORD_SIZE + 1), 255)]. *)
Variable cap : nat.

Local Abbreviation node := (node H K V).
Local Abbreviation cell := (cell K V).

Definition set_hdr (n : node) (h : H) : node :=
  mk_node h (records_length n) (first_free_record_id n) (slots n) (heap n).
Definition set_records_length (n : node) (l : nat) : node :=
  mk_node (hdr n) l (first_free_record_id n) (slots n) (heap n).
Definition set_first_free (n : node) (f : nat) : node :=
  mk_node (hdr n) (records_length n) f (slots n) (heap n).
Definition set_slots (n : node) (s : list nat) : node :=
  mk_node (hdr n) (records_length n) (first_free_record_id n) s (heap n).
(** Writing a record cell; [mut_record]/[mut_free_record] followed by
    field assignments. *)
Definition set_cell (n : node) (id : nat) (c : cell) : node :=
  mk_node (hdr n) (records_length n) (first_free_record_id n) (slots n)
    (<[id := c]> (heap n)).

(** [len], [is_full], [is_empty] *)
Definition len (n : node) : nat := records_length n.
Definition is_full (n : node) : bool := records_length n =? cap.
Definition is_empty (n : node) : bool := records_length n =? 0.

(** [record(id)]: reading the cell as a [Record<K, V>].  [None] marks a
    read of bytes that do not hold a record (out of the heap or a free
    entry): undefined on the Rust side, never reached on well-formed
    nodes. *)
Definition record (n : node) (id : nat) : option (K * V) :=
  match heap n !! id with
  | Some (Used k v) => Some (k, v)
  | _ => None
  end.

(** [lower_bound]: binary search over the slot directory.  The loop
    runs at most [right - left] times; [fuel] is that bound. *)
Fixpoint lower_bound_loop (fuel : nat) (n : node) (key : K)
    (left right : nat) : option nat :=
  match fuel with
  | O => Some left
  | S fuel' =>
      if left =? right then Some left
      else
        let mid := (left + right) / 2 in
        mid_record_id ← slots n !! mid;
        '(mk, _) ← record n mid_record_id;
        if key_le key mk then lower_bound_loop fuel' n key left mid
        else lower_bound_loop fuel' n key (S mid) right
  end.

Definition lower_bound (n : node) (key : K) : option nat :=
  lower_bound_loop (records_length n) n key 0 (records_length n).

(** [alloc_new_record]: carve a record id from the head free entry. *)
Definition alloc_new_record (n : node) : option (nat * node) :=
  let first := first_free_record_id n in
  if first =? invalid then None   (* debug_assert_ne! *)
  else
    match heap n !! first with
    | Some (Free length next) =>
        if length =? 1 then Some (first, set_first_free n next)
        else
          let length' := length - 1 in
          Some (rid_offset first length', set_cell n first (Free length' next))
    | _ => None
    end.

(** [insert_new_record_id]: shift [offset .. right) one to the right and
    write the id at [offset]. *)
Definition insert_new_record_id (n : node) (id offset : nat) : node :=
  set_slots n (take offset (slots n) ++ id :: drop offset (slots n)).

(** [dealloc_record]: push a length-1 free entry and shift the slot
    directory left over [offset]. *)
Definition dealloc_record (n : node) (offset : nat) : option node :=
  id ← slots n !! offset;
  let first := first_free_record_id n in
  let n1 := set_cell n id (Free 1 first) in
  let n2 := set_first_free n1 id in
  let n3 := set_slots n2 (take offset (slots n2) ++ drop (S offset) (slots n2)) in
  Some (set_records_length n3 (records_length n3 - 1)).

(** [BasicNode::put] *)
Definition insert_fresh (n : node) (offset : nat) (key : K) (value : V)
    : option node :=
  '(id, n1) ← alloc_new_record n;
  let n2 := set_cell n1 id (Used key value) in
  let n3 := insert_new_record_id n2 id offset in
  Some (set_records_length n3 (records_length n3 + 1)).

Definition put (n : node) (key : K) (value : V) : option node :=
  offset ← lower_bound n key;
  if negb (offset =? records_length n) then
    id ← slots n !! offset;
    '(k, _) ← record n id;
    if key_eqb k key then Some (set_cell n id (Used k value))
    else insert_fresh n offset key value
  else insert_fresh n offset key value.

(** [BasicNode::get] *)
Definition get (n : node) (key : K) : option (option V) :=
  offset ← lower_bound n key;
  if offset =? records_length n then Some None
  else
    id ← slots n !! offset;
    '(k, v) ← record n id;
    Some (if key_eqb k key then Some v else None).

(** [BasicNode::get_lower_bound_record] *)
Definition get_lower_bound_record (n : node) (key : K)
    : option (option (K * V)) :=
  offset ← lower_bound n key;
  if offset =? records_length n then Some None
  else
    id ← slots n !! offset;
    r ← record n id;
    Some (Some r).

(** [BasicNode::rightest_record] *)
Definition rightest_record (n : node) : option (K * V) :=
  if is_empty n then None   (* debug_assert! *)
  else
    id ← slots n !! (records_length n - 1);
    record n id.

(** [BasicNode::pop_righest_record] *)
Definition pop_rightest_record (n : node) : option ((K * V) * node) :=
  if is_empty n then None   (* debug_assert! *)
  else
    let offset := records_length n - 1 in
    id ← slots n !! offset;
    r ← record n id;
    n' ← dealloc_record n offset;
    Some (r, n').

(** [BasicNode::shift_rightest_record] *)
Definition shift_rightest_record (n rhs : node) : option (node * node) :=
  if is_empty n then None        (* assert! *)
  else if is_full rhs then None  (* assert! *)
  else
    let offset := records_length n - 1 in
    id ← slots n !! offset;
    '(k, v) ← record n id;
    rhs' ← put rhs k v;
    n' ← dealloc_record n offset;
    Some (n', rhs').

Fixpoint shift_times (i : nat) (n rhs : node) : option (node * node) :=
  match i with
  | O => Some (n, rhs)
  | S i' => '(n1, rhs1) ← shift_rightest_record n rhs; shift_times i' n1 rhs1
  end.

(** [BasicNode::split] *)
Definition split (n rhs : node) : option (node * node) :=
  shift_times (len n / 2) n rhs.

(** [BasicNode::init] *)
Definition init (n : node) : node :=
  let n1 := mk_node (hdr n) 0 0 [] (heap n) in
  set_cell n1 0 (Free cap invalid).

(** A freshly appended page: its bytes are uninitialised. *)
Definition uninit (h : H) : node := mk_node h 0 0 [] (repeat Garbage cap).

(** The records in slot-directory order (what [BasicNodeIter] yields). *)
Definition node_records (n : node) : option (list (K * V)) :=
  mapM (record n) (slots n).

(** Traversal of the free list from [first_free_record_id]; each entry
    [(id, length)] covers [length] consecutive ids from [id]. *)
Fixpoint free_runs (fuel : nat) (hp : list cell) (id : nat)
    : option (list (nat * nat)) :=
  if id =? invalid then Some []
  else match fuel with
    | O => None
    | S fuel' =>
        match hp !! id with
        | Some (Free length next) =>
            rs ← free_runs fuel' hp next; Some ((id, length) :: rs)
        | _ => None
        end
    end.

Definition run_ids (rs : list (nat * nat)) : list nat :=
  flat_map (fun r => seq r.1 r.2) rs.

Definition free_ids (n : node) : option (list nat) :=
  run_ids <$> free_runs 256 (heap n) (first_free_record_id n).

(** Strict order on keys: [a < b] iff not [b <= a]. *)
Definition key_lt (a b : K) : Prop := key_le b a = false.

(** [K]'s comparison is a total order and [==] decides equality (as for
    [Hash], [u8], [u64]). *)
Record key_order : Prop := {
  key_eqb_spec : forall a b, key_eqb a b = true <-> a = b;
  key_le_total : forall a b, key_le a b = true \/ key_le b a = true;
  key_le_trans : forall a b c, key_le a b = true -> key_le b c = true -> key_le a c = true;
  key_le_antisym : forall a b, key_le a b = true -> key_le b a = true -> a = b
}.

(** The free list is the run list [rs]: it terminates, every run is
    non-empty, and its ids together with the slot directory enumerate
    [0 .. cap) without repetition. *)
Definition free_list_ok (n : node) (rs : list (nat * nat)) : Prop :=
  free_runs 256 (heap n) (first_free_record_id n) = Some rs /\
  Forall (fun r => 1 <= r.2) rs /\
  NoDup (run_ids rs ++ slots n) /\
  (forall i, i ∈ run_ids rs ++ slots n <-> i < cap).

(** Well-formed node. *)
Definition wf (n : node) : Prop :=
  cap <= 255 /\ length (heap n) = cap /\ records_length n = length (slots n) /\
  (exists rs, free_list_ok n rs) /\
  (exists recs, node_records n = Some recs /\ StronglySorted key_lt (map fst recs)).

(** Nodes reachable from [init()] by [put], [split] and
    [pop_righest_record], each called within its precondition. *)
Inductive reachable : node -> Prop :=
| reach_init (n : node) :
    length (heap n) = cap -> reachable (init n)
| reach_put (n n' : node) (k : K) (v : V) :
    reachable n -> is_full n = false -> put n k v = Some n' -> reachable n'
| reach_split_l (n r n' r' : node) :
    reachable n -> reachable r -> is_empty n = false -> is_empty r = true ->
    split n r = Some (n', r') -> reachable n'
| reach_split_r (n r n' r' : node) :
    reachable n -> reachable r -> is_empty n = false -> is_empty r = true ->
    split n r = Some (n', r') -> reachable r'
| reach_pop (n n' : node) (x : K * V) :
    reachable n -> is_empty n = false -> pop_rightest_record n = Some (x, n') ->
    reachable n'.
End Ops.

End BasicNode.

(* ================================================================= *)
(** ** Keys, offsets and page ids *)
(* ================================================================= *)

(** [Hash([u8; 32])]: 32 bytes, each in [0, 256). *)
Definition Hash := list Z.

(** [#[derive(PartialOrd)]] on a byte array: lexicographic [<=]. *)
Fixpoint hash_le (a b : Hash) : bool :=
  match a, b with
  | [], _ => true
  | _ :: _, [] => false
  | x :: a', y :: b' =>
      if (x <? y)%Z then true else if (y <? x)%Z then false else hash_le a' b'
  end.

(** [#[derive(PartialEq)]] *)
Definition hash_eqb (a b : Hash) : bool := bool_decide (a = b).

(** [Offset(u64)] and [PageId(u32)] *)
Definition Offset := N.
Definition PageId := N.

(** [PAGE_SIZE] and the capacities [cap()] of the two node kinds:
    [size_of::<BasicNodeHdr<LeafNodeHdr>>() = 3],
    [size_of::<Record<Hash, Offset>>() = 40];
    [size_of::<BasicNodeHdr<InternalNodeHdr>>() = 12] (a 4-aligned
    [{node_type, rightest_page_id}] plus two bytes, padded),
    [size_of::<Record<Hash, PageId>>() = 36]. *)
Definition PAGE_SIZE : nat := 4096.
Definition node_cap (page_head_size record_size : nat) : nat :=
  Nat.min ((PAGE_SIZE - page_head_size) / (record_size + 1)) 255.
Definition leaf_cap : nat := node_cap 3 40.
Definition internal_cap : nat := node_cap 12 36.

(** [LeafNode = BasicNode<LeafNodeHdr, Hash, Offset>]; the node-type byte
    is carried by the page content below. *)
Abbreviation leaf_node := (BasicNode.node unit Hash Offset).
(** [InternalNode = BasicNode<InternalNodeHdr, Hash, PageId>]; the header
    holds [rightest_page_id]. *)
Abbreviation internal_node := (BasicNode.node PageId Hash PageId).

(* ================================================================= *)
(** ** Pages and the pager ([page.rs], [pager.rs]) *)
(* ================================================================= *)

(** What a 4096-byte page holds, read through its node-type byte. *)
Inductive content :=
| CHead (root_node_page_id : PageId)   (* node_type = Head, version 0, magic *)
| CLeaf (n : leaf_node)
| CInternal (n : internal_node)
| CUninit.                             (* appended, never initialised *)

(** [PageInner]: the shared buffer and its dirty flag. *)
Record page := mk_page { buf : content; is_dirty : bool }.

(** [PagerInner]: the index file as a list of pages, [pages_len], and the
    cache.  A [Page] handle is its id: every handle is a clone of the
    cached one, so all handles alias the cached buffer. *)
Record pager := mk_pager {
  file : list content;
  pages_len : nat;
  page_map : gmap N page
}.

(** Outcome of an operation: [Ok], [Err(Error)], a panic, or exhaustion
    of the recursion bound of the model. *)
Inductive outcome (A : Type) :=
| Done (a : A)
| Failed (message : string)
| Panicked
| OutOfFuel.
Arguments Done {A} _.
Arguments Failed {A} _.
Arguments Panicked {A}.
Arguments OutOfFuel {A}.

(** State threaded through the index code: the pager. *)
Definition PM (A : Type) : Type := pager -> outcome A * pager.

Definition pret {A} (a : A) : PM A := fun s => (Done a, s).
Definition pbind {A B} (m : PM A) (k : A -> PM B) : PM B :=
  fun s => match m s with
           | (Done a, s') => k a s'
           | (Failed e, s') => (Failed e, s')
           | (Panicked, s') => (Panicked, s')
           | (OutOfFuel, s') => (OutOfFuel, s')
           end.
Definition ppanic {A} : PM A := fun s => (Panicked, s).
Definition pfail {A} (e : string) : PM A := fun s => (Failed e, s).
(** A [None] from a node operation is a failed assertion. *)
Definition plift {A} (o : option A) : PM A :=
  match o with Some a => pret a | None => ppanic end.

Notation "'let!' x ':=' m 'in' k" := (pbind m (fun x => k))
  (at level 200, x name, m at level 200, k at level 200).
Notation "'let!' ' p ':=' m 'in' k" :=
  (pbind m (fun x => match x with p => k end))
  (at level 200, p pattern, m at level 200, k at level 200).

(** [Pager::new]: [pages_len = file_len / PAGE_SIZE], empty cache. *)
Definition pager_new (f : list content) : pager := mk_pager f (length f) ∅.

(** [Pager::append_empty_uninited_page]: write an uninitialised page at the
    end of the file, cache it (not dirty). *)
Definition append_empty_uninited_page : PM PageId :=
  fun s =>
    let id := N.of_nat (pages_len s) in
    (Done id, mk_pager (file s ++ [CUninit]) (S (pages_len s))
                (<[id := mk_page CUninit false]> (page_map s))).

(** [Pager::get_page]: the cached page, or read it from the file. *)
Definition get_page (id : PageId) : PM PageId :=
  fun s =>
    match page_map s !! id with
    | Some _ => (Done id, s)
    | None =>
        match file s !! N.to_nat id with
        | Some c => (Done id, mk_pager (file s) (pages_len s)
                                 (<[id := mk_page c false]> (page_map s)))
        | None => (Failed "read to buffer: failed to fill whole buffer", s)
        end
    end.

(** [Pager::sync_page]: write the buffer back if dirty, clearing the flag. *)
Definition sync_page (id : PageId) : PM unit :=
  fun s =>
    match page_map s !! id with
    | Some p =>
        if is_dirty p then
          (Done tt, mk_pager (<[N.to_nat id := buf p]> (file s)) (pages_len s)
                      (<[id := mk_page (buf p) false]> (page_map s)))
        else (Done tt, s)
    | None => (Panicked, s)
    end.

(** [Page::make_dirty] *)
Definition make_dirty (id : PageId) : PM unit :=
  fun s =>
    match page_map s !! id with
    | Some p => (Done tt, mk_pager (file s) (pages_len s)
                            (<[id := mk_page (buf p) true]> (page_map s)))
    | None => (Panicked, s)
    end.

(** Reading and writing the buffer behind a handle ([buf], [mut_buf]). *)
Definition read_buf (id : PageId) : PM content :=
  fun s =>
    match page_map s !! id with
    | Some p => (Done (buf p), s)
    | None => (Panicked, s)
    end.
Definition write_buf (id : PageId) (c : content) : PM unit :=
  fun s =>
    match page_map s !! id with
    | Some p => (Done tt, mk_pager (file s) (pages_len s)
                            (<[id := mk_page c (is_dirty p)]> (page_map s)))
    | None => (Panicked, s)
    end.

(* ================================================================= *)
(** ** LeafNode, InternalNode, HeadNode ([node/*.rs]) *)
(* ================================================================= *)

(** The node operations at [Hash] keys. *)
Definition node_put {Hd V} (n : BasicNode.node Hd Hash V) (k : Hash) (v : V) :=
  BasicNode.put hash_le hash_eqb n k v.
Definition node_get {Hd V} (n : BasicNode.node Hd Hash V) (k : Hash) :=
  BasicNode.get hash_le hash_eqb n k.

(** [LeafNode::init] on a freshly appended page. *)
Definition leaf_init : leaf_node :=
  BasicNode.init leaf_cap (BasicNode.uninit leaf_cap tt).

(** [InternalNode::init(rightest_page_id)] on a freshly appended page. *)
Definition internal_init (rightest_page_id : PageId) : internal_node :=
  BasicNode.set_hdr
    (BasicNode.init internal_cap (BasicNode.uninit internal_cap rightest_page_id))
    rightest_page_id.

(** [InternalNode::get]: the lower-bound record's [(key, child)], else
    [(None, rightest_page_id)]. *)
Definition internal_get (n : internal_node) (key : Hash)
    : option (option Hash * PageId) :=
  r ← BasicNode.get_lower_bound_record hash_le n key;
  Some (match r with
        | Some (k, v) => (Some k, v)
        | None => (None, BasicNode.hdr n)
        end).

(** [HeadNode::check]: node type, version and magic.  A page holds a head
    header only when [HeadNode::init] wrote it. *)
Definition head_check (c : content) : bool :=
  match c with CHead _ => true | _ => false end.

(* ================================================================= *)
(** ** BTree ([btree.rs]) *)
(* ================================================================= *)

Module BTree.

(** [BTree { pager, head_node }]: the head node is the cached page 0. *)
Definition HEAD_PAGE_ID : PageId := 0%N.

(** [self.head_node.hdr().root_node_page_id] *)
Definition root_page_id : PM PageId :=
  let! c := read_buf HEAD_PAGE_ID in
  match c with CHead r => pret r | _ => ppanic end.

(** [BTree::new] over the existing contents of the index file. *)
Definition new_init : PM unit :=
  let! head_page := append_empty_uninited_page in
  let! root_page := append_empty_uninited_page in
  let! _ := make_dirty head_page in
  let! _ := write_buf head_page (CHead root_page) in
  let! _ := sync_page head_page in
  let! _ := make_dirty root_page in
  let! _ := write_buf root_page (CLeaf leaf_init) in
  sync_page root_page.

Definition new_body : PM unit :=
  fun s =>
    (let! _ := (if pages_len s =? 0 then new_init else pret tt) in
     let! head_page := get_page HEAD_PAGE_ID in
     let! c := read_buf head_page in
     if head_check c then pret tt else pfail "the head node is not valid") s.

Definition new (index_file : list content) : outcome unit * pager :=
  new_body (pager_new index_file).

(** [enum InnerPut { SplitMe(Hash, PageId), Alright }] *)
Inductive InnerPut := SplitMe (k : Hash) (p : PageId) | Alright.

(** [inner_put] of [BTree::put]; [fuel] bounds the recursion depth. *)
Fixpoint inner_put (fuel : nat) (page : PageId) (key : Hash) (value : Offset)
    : PM InnerPut :=
  match fuel with
  | O => fun s => (OutOfFuel, s)
  | S fuel' =>
  let! c := read_buf page in
  match c with
  | CLeaf node =>
      if BasicNode.is_full leaf_cap node then
        let! new_page := append_empty_uninited_page in
        let new_node := leaf_init in
        let! _ := write_buf new_page (CLeaf new_node) in
        let! '(node', new_node') :=
          plift (BasicNode.split hash_le hash_eqb leaf_cap node new_node) in
        let! _ := write_buf page (CLeaf node') in
        let! _ := write_buf new_page (CLeaf new_node') in
        let! _ := make_dirty new_page in
        let! _ := make_dirty page in
        let! _ := sync_page new_page in
        let! _ := sync_page page in
        let! '(rk, _) := plift (BasicNode.rightest_record node') in
        pret (SplitMe rk new_page)
      else
        let! node' := plift (node_put node key value) in
        let! _ := write_buf page (CLeaf node') in
        let! _ := make_dirty page in
        let! _ := sync_page page in
        pret Alright
  | CInternal node =>
      if BasicNode.is_full internal_cap node then
        let! new_page := append_empty_uninited_page in
        let new_node := internal_init (BasicNode.hdr node) in
        let! _ := write_buf new_page (CInternal new_node) in
        let! '(node1, new_node') :=
          plift (BasicNode.split hash_le hash_eqb internal_cap node new_node) in
        let! '(mid_record, node2) := plift (BasicNode.pop_rightest_record node1) in
        let node3 := BasicNode.set_hdr node2 mid_record.2 in
        let! _ := write_buf page (CInternal node3) in
        let! _ := write_buf new_page (CInternal new_node') in
        let! _ := sync_page new_page in
        let! _ := sync_page page in
        pret (SplitMe mid_record.1 new_page)
      else
        let! '(origin_key, next_page_id) := plift (internal_get node key) in
        let! next_page := get_page next_page_id in
        let! r := inner_put fuel' next_page key value in
        match r with
        | Alright => pret Alright
        | SplitMe new_key new_value =>
            (* [node] views the shared page: read its current bytes. *)
            let! c' := read_buf page in
            let! node := (match c' with CInternal n => pret n | _ => ppanic end) in
            let! node' :=
              (match origin_key with
               | Some ori_k =>
                   let! n1 := plift (node_put node ori_k new_value) in
                   plift (node_put n1 new_key next_page_id)
               | None =>
                   let n1 := BasicNode.set_hdr node new_value in
                   plift (node_put n1 new_key next_page_id)
               end) in
            let! _ := write_buf page (CInternal node') in
            let! _ := make_dirty page in
            let! _ := sync_page page in
            inner_put fuel' page key value
        end
  | _ => ppanic   (* get_node_type: unexpected node type *)
  end
  end.

(** [BTree::put] *)
Definition put (fuel : nat) (key : Hash) (value : Offset) : PM unit :=
  let! root := root_page_id in
  let! root_page := get_page root in
  let! r := inner_put fuel root_page key value in
  match r with
  | Alright => pret tt
  | SplitMe new_key new_value =>
      let! parent_page := append_empty_uninited_page in
      let parent_node := internal_init new_value in
      let! parent_node' := plift (node_put parent_node new_key root) in
      let! _ := write_buf parent_page (CInternal parent_node') in
      let! _ := write_buf HEAD_PAGE_ID (CHead parent_page) in
      let! _ := inner_put fuel parent_page key value in
      pret tt
  end.

(** [inner_get] of [BTree::get] *)
Fixpoint inner_get (fuel : nat) (page : PageId) (key : Hash) : PM (option Offset) :=
  match fuel with
  | O => fun s => (OutOfFuel, s)
  | S fuel' =>
  let! c := read_buf page in
  match c with
  | CLeaf node => plift (node_get node key)
  | CInternal node =>
      let! '(_, next_page_id) := plift (internal_get node key) in
      let! next_page := get_page next_page_id in
      inner_get fuel' next_page key
  | _ => ppanic
  end
  end.

(** [BTree::get] *)
Definition get (fuel : nat) (key : Hash) : PM (option Offset) :=
  let! root := root_page_id in
  let! root_page := get_page root in
  inner_get fuel root_page key.

End BTree.

(* ================================================================= *)
(** ** SHA-256 and its hex rendering (the [sha256] crate's [digest]) *)
(* ================================================================= *)

(** FIPS 180-4 SHA-256 on a byte list; words are 32-bit [Z]. *)
Module Sha256.
Open Scope Z_scope.

Definition mask32 (x : Z) : Z := Z.land x 4294967295.
Definition add32 (x y : Z) : Z := mask32 (x + y).
Definition rotr (x : Z) (n : Z) : Z :=
  Z.lor (Z.shiftr x n) (mask32 (Z.shiftl x (32 - n))).
Definition ch (x y z : Z) : Z := Z.lxor (Z.land x y) (Z.land (Z.lxor x 4294967295) z).
Definition maj (x y z : Z) : Z := Z.lxor (Z.lxor (Z.land x y) (Z.land x z)) (Z.land y z).
Definition bsig0 (x : Z) : Z := Z.lxor (Z.lxor (rotr x 2) (rotr x 13)) (rotr x 22).
Definition bsig1 (x : Z) : Z := Z.lxor (Z.lxor (rotr x 6) (rotr x 11)) (rotr x 25).
Definition ssig0 (x : Z) : Z := Z.lxor (Z.lxor (rotr x 7) (rotr x 18)) (Z.shiftr x 3).
Definition ssig1 (x : Z) : Z := Z.lxor (Z.lxor (rotr x 17) (rotr x 19)) (Z.shiftr x 10).

(** Round constants and initial hash value of FIPS 180-4, in decimal. *)
Definition K256 : list Z := [
  1116352408; 1899447441; 3049323471; 3921009573; 961987163; 1508970993; 2453635748; 2870763221;
  3624381080; 310598401; 607225278; 1426881987; 1925078388; 2162078206; 2614888103; 3248222580;
  3835390401; 4022224774; 264347078; 604807628; 770255983; 1249150122; 1555081692; 1996064986;
  2554220882; 2821834349; 2952996808; 3210313671; 3336571891; 3584528711; 113926993; 338241895;
  666307205; 773529912; 1294757372; 1396182291; 1695183700; 1986661051; 2177026350; 2456956037;
  2730485921; 2820302411; 3259730800; 3345764771; 3516065817; 3600352804; 4094571909; 275423344;
  430227734; 506948616; 659060556; 883997877; 958139571; 1322822218; 1537002063; 1747873779;
  1955562222; 2024104815; 2227730452; 2361852424; 2428436474; 2756734187; 3204031479; 3329325298].

Definition H0 : list Z := [
  1779033703; 3144134277; 1013904242; 2773480762; 1359893119; 2600822924; 528734635; 1541459225].

(** Big-endian words of a 64-byte block. *)
Fixpoint be_words (fuel : nat) (b : list Z) : list Z :=
  match fuel, b with
  | S f, b0 :: b1 :: b2 :: b3 :: rest =>
      (b0 * 16777216 + b1 * 65536 + b2 * 256 + b3) :: be_words f rest
  | _, _ => []
  end.

(** Message schedule: [w] holds [W_0 .. W_{t-1}] in reverse. *)
Fixpoint schedule (n : nat) (rev_w : list Z) : list Z :=
  match n with
  | O => rev_w
  | S n' =>
      let w := fun i => nth i rev_w 0 in
      schedule n' (add32 (add32 (ssig1 (w 1%nat)) (w 6%nat))
                         (add32 (ssig0 (w 14%nat)) (w 15%nat)) :: rev_w)
  end.

Definition compress (hs : list Z) (block : list Z) : list Z :=
  let ws := rev (schedule 48 (rev (be_words 16 block))) in
  let step := fun (st : list Z) (kw : Z * Z) =>
    match st with
    | [a; b; c; d; e; f; g; h] =>
        let t1 := add32 (add32 (add32 h (bsig1 e)) (add32 (ch e f g) kw.1)) kw.2 in
        let t2 := add32 (bsig0 a) (maj a b c) in
        [add32 t1 t2; a; b; c; add32 d t1; e; f; g]
    | _ => st
    end in
  let fin := fold_left step (zip K256 ws) hs in
  zip_with add32 hs fin.

(** Padding: [0x80], zeros, then the bit length as 8 big-endian bytes. *)
Definition pad (msg : list Z) : list Z :=
  let l := length msg in
  let zeros := ((119 - (l mod 64)) mod 64)%nat in
  let bits := 8 * Z.of_nat l in
  msg ++ [128] ++ repeat 0 zeros ++
    map (fun i => Z.land (Z.shiftr bits (8 * (7 - Z.of_nat i))) 255) (seq 0 8).

Fixpoint blocks (fuel : nat) (b : list Z) : list (list Z) :=
  match fuel, b with
  | S f, _ :: _ => take 64 b :: blocks f (drop 64 b)
  | _, _ => []
  end.

Definition word_bytes (w : Z) : list Z :=
  map (fun i => Z.land (Z.shiftr w (8 * (3 - Z.of_nat i))) 255) (seq 0 4).

Definition sha256 (msg : list Z) : list Z :=
  let p := pad msg in
  flat_map word_bytes (fold_left compress (blocks (length p) p) H0).
End Sha256.

(** Lowercase hex rendering ([{:02x}] per byte). *)
Definition hex_digit (d : Z) : ascii :=
  if (d <? 10)%Z then ascii_of_nat (48 + Z.to_nat d)
  else ascii_of_nat (87 + Z.to_nat d).
Fixpoint hex_lower (b : list Z) : string :=
  match b with
  | [] => EmptyString
  | x :: b' => String (hex_digit (Z.shiftr x 4)) (String (hex_digit (Z.land x 15)) (hex_lower b'))
  end.

(** The UTF-8 byte of the digit [hex_digit d], and the two bytes
    [hex_lower] writes for the byte [x]. *)
Definition hex_code (d : Z) : Z := Z.of_nat (nat_of_ascii (hex_digit d)).
Definition hex_pair (x : Z) : list Z := [hex_code (Z.shiftr x 4); hex_code (Z.land x 15)].

(** [Database::gen_waste_hash] = [sha256::digest]. *)
Definition gen_waste_hash (data : list Z) : string := hex_lower (Sha256.sha256 data).

(* ================================================================= *)
(** ** [Hash::from_str] ([hash.rs]) *)
(* ================================================================= *)

(** A [&str] as its UTF-8 bytes. *)
Definition str_bytes (s : string) : list Z :=
  map (fun a => Z.of_nat (nat_of_ascii a)) (list_ascii_of_string s).

(** [str::is_char_boundary]: [0], the length, or a byte that is not a
    UTF-8 continuation byte. *)
Definition is_char_boundary (b : list Z) (i : nat) : bool :=
  (i =? 0) || (i =? length b) ||
  match b !! i with
  | Some x => negb ((128 <=? x)%Z && (x <? 192)%Z)
  | None => false
  end.

(** [&str[a..b]]: panics unless both ends are in range and on char
    boundaries. *)
Definition str_slice (b : list Z) (lo hi : nat) : option (list Z) :=
  if (lo <=? hi) && (hi <=? length b) && is_char_boundary b lo && is_char_boundary b hi
  then Some (take (hi - lo) (drop lo b)) else None.

(** [char::to_digit(16)] on a byte. *)
Definition hex_value (c : Z) : option Z :=
  if ((48 <=? c) && (c <=? 57))%Z then Some (c - 48)%Z
  else if ((97 <=? c) && (c <=? 102))%Z then Some (c - 87)%Z
  else if ((65 <=? c) && (c <=? 70))%Z then Some (c - 55)%Z
  else None.

(** [u8::from_str_radix(src, 16)] (Rust core): an empty string or a lone
    sign is an error; one leading ['+'] is skipped; every remaining byte must
    be a hex digit; the value must fit in a [u8]. *)
Definition u8_from_str_radix16 (src : list Z) : option Z :=
  let digits :=
    match src with
    | [] => None
    | c :: rest =>
        if (c =? 43)%Z || (c =? 45)%Z then
          (if bool_decide (rest = []) then None
           else if (c =? 43)%Z then Some rest else Some src)
        else Some src
    end in
  match digits with
  | None => None
  | Some ds =>
      v ← foldl (fun acc c => a ← acc; d ← hex_value c; Some (a * 16 + d)%Z)
                (Some 0%Z) ds;
      if (v <=? 255)%Z then Some v else None
  end.

(** [Hash::from_str]: the length check returns [Err]; each byte pair is
    sliced and parsed with [.unwrap()]. *)
Definition hash_from_str (s : string) : outcome Hash :=
  let b := str_bytes s in
  if negb (length b =? 64) then
    Failed "the length of str is not equal to HASH_LENGTH * 2"
  else
    let fix go (i : nat) (acc : list Z) : outcome Hash :=
      match i with
      | O => Done (rev acc)
      | S i' =>
          let j := 32 - i in
          match str_slice b (2 * j) (2 * j + 2) with
          | None => Panicked                       (* byte index not a char boundary *)
          | Some sub =>
              match u8_from_str_radix16 sub with
              | None => Panicked                   (* .unwrap() on Err *)
              | Some byte => go i' (byte :: acc)
              end
          end
      end in
    go 32 [].

(** Modelled from the spec: [ToInnerResult] for [Result<T, Error>] (the
    repository's [error.rs] under [src/] only has the [io::Result]
    instance): "every fallible operation wraps lower-level errors with a
    short prefix describing the action", as [prefix: message]. *)
Definition to_inner_result {A} (prefix : string) (o : outcome A) : outcome A :=
  match o with
  | Failed e => Failed (prefix +:+ ": " +:+ e)
  | _ => o
  end.

(* ================================================================= *)
(** ** Indexer ([indexer.rs]) *)
(* ================================================================= *)

(** [Indexer::put] *)
Definition indexer_put (fuel : nat) (hash : string) (offset : N) : PM unit :=
  fun s =>
    match to_inner_result "turn to valid hash" (hash_from_str hash) with
    | Done h => BTree.put fuel h offset s
    | Failed e => (Failed e, s)
    | Panicked => (Panicked, s)
    | OutOfFuel => (OutOfFuel, s)
    end.

(** [Indexer::get] *)
Definition indexer_get (fuel : nat) (hash : string) : PM (option Offset) :=
  fun s =>
    match to_inner_result "turn to valid hash" (hash_from_str hash) with
    | Done h => BTree.get fuel h s
    | Failed e => (Failed e, s)
    | Panicked => (Panicked, s)
    | OutOfFuel => (OutOfFuel, s)
    end.

(* ================================================================= *)
(** ** Database ([database.rs], [offset.rs]) *)
(* ================================================================= *)

Module Database.

(** The [data] file: its bytes and the cursor of the open handle. *)
Record data_file := mk_data { data_bytes : list Z; position : nat }.

(** [Database { path, data, indexer }]: the open data file and the
    indexer's pager. *)
Record database := mk_db { data : data_file; index : pager }.

(** What a database directory holds on disk: the [data] and [index] files. *)
Record directory := mk_dir { dir_data : list Z; dir_index : list content }.

Definition DM (A : Type) : Type := database -> outcome A * database.

(** [Offset::to_bytes] / [Offset::from_bytes]: 8 little-endian bytes. *)
Definition offset_to_bytes (n : N) : list Z :=
  map (fun i => Z.land (Z.shiftr (Z.of_N n) (8 * Z.of_nat i)) 255) (seq 0 8).
Definition offset_from_bytes (b : list Z) : N :=
  Z.to_N (foldr (fun x acc => x + 256 * acc)%Z 0%Z b).

(** [Write::write_all] at the cursor (overwriting, extending the file). *)
Definition file_write (f : data_file) (bs : list Z) : data_file :=
  let d := data_bytes f in
  let p := position f in
  mk_data (take p d ++ repeat 0%Z (p - length d) ++ bs ++ drop (p + length bs) d)
          (p + length bs).

(** [Read::read_exact] at the cursor. *)
Definition file_read_exact (f : data_file) (n : nat)
    : outcome (list Z) * data_file :=
  if position f + n <=? length (data_bytes f) then
    (Done (take n (drop (position f) (data_bytes f))),
     mk_data (data_bytes f) (position f + n))
  else (Failed "failed to fill whole buffer", f).

(** [Database::new] on a directory: the data file is opened with its
    cursor at 0, the index through [BTree::new]. *)
Definition new (d : directory) : outcome unit * database :=
  let '(r, p) := BTree.new (dir_index d) in
  (to_inner_result "open indexer"
     (to_inner_result "open index file by B-Tree format" r),
   mk_db (mk_data (dir_data d) 0) p).

(** What stays on disk once the handle is dropped: nothing is flushed on
    drop, the index file holds what [sync_page] wrote. *)
Definition close (db : database) : directory :=
  mk_dir (data_bytes (data db)) (file (index db)).

(** [Database::put] *)
Definition put (fuel : nat) (bytes : list Z) : DM string :=
  fun db =>
    let hash := gen_waste_hash bytes in
    let offset := position (data db) in
    let f1 := file_write (data db) (offset_to_bytes (N.of_nat (length bytes))) in
    let f2 := file_write f1 bytes in
    let '(r, p) := indexer_put fuel hash (N.of_nat offset) (index db) in
    let db' := mk_db f2 p in
    match r with
    | Done _ => (Done hash, db')
    | Failed e => (Failed e, db')
    | Panicked => (Panicked, db')
    | OutOfFuel => (OutOfFuel, db')
    end.

(** [Database::get] *)
Definition get (fuel : nat) (hash : string) : DM (list Z) :=
  fun db =>
    let '(r, p) := indexer_get fuel hash (index db) in
    let db1 := mk_db (data db) p in
    match to_inner_result "get offset by hash" r with
    | Done None => (Failed "hash not found", db1)
    | Done (Some o) =>
        let f1 := mk_data (data_bytes (data db)) (N.to_nat o) in
        match file_read_exact f1 8 with
        | (Done size_bytes, f2) =>
            let size := N.to_nat (offset_from_bytes size_bytes) in
            match file_read_exact f2 size with
            | (Done content, f3) => (Done content, mk_db f3 p)
            | (Failed e, f3) => (Failed ("read waste: " +:+ e), mk_db f3 p)
            | (_, f3) => (Panicked, mk_db f3 p)
            end
        | (Failed e, f2) => (Failed ("read size: " +:+ e), mk_db f2 p)
        | (_, f2) => (Panicked, mk_db f2 p)
        end
    | Failed e => (Failed e, db1)
    | Panicked => (Panicked, db1)
    | OutOfFuel => (OutOfFuel, db1)
    end.

End Database.

(* ================================================================= *)
(** ** Tree-level invariant and concrete workloads *)
(* ================================================================= *)

(** Strict lexicographic order on hashes. *)
Definition hash_lt (a b : Hash) : bool := hash_le a b && negb (hash_eqb a b).

(** Record keys in slot-directory order are strictly ascending. *)
Definition keys_ascending {Hd V} (n : BasicNode.node Hd Hash V) : Prop :=
  exists recs, BasicNode.node_records n = Some recs /\
    StronglySorted (fun a b => hash_lt a b = true) (map fst recs).

(** Every leaf or internal page of a pager state. *)
Definition page_keys_ascending (c : content) : Prop :=
  match c with
  | CLeaf n => keys_ascending n
  | CInternal n => keys_ascending n
  | _ => True
  end.

(** Pager states reachable from a fresh tree by [BTree::put]. *)
Inductive tree_reachable : pager -> Prop :=
| tr_fresh : tree_reachable (snd (BTree.new []))
| tr_put (s : pager) (fuel : nat) (k : Hash) (v : Offset) :
    tree_reachable s -> tree_reachable (snd (BTree.put fuel k v s)).

(** Well-formed page contents: leaves and internal nodes are well-formed
    slotted pages of their own capacities. *)
Definition content_wf (c : content) : Prop :=
  match c with
  | CLeaf n => BasicNode.wf hash_le leaf_cap n
  | CInternal n => BasicNode.wf hash_le internal_cap n
  | _ => True
  end.

(** Every cached page and every page of the index file is well-formed. *)
Definition pager_wf (s : pager) : Prop :=
  (forall id p, page_map s !! id = Some p -> content_wf (buf p)) /\
  (forall i c, file s !! i = Some c -> content_wf c).

(** [m] keeps [pager_wf], and its result (when it returns) satisfies [Q]. *)
Definition preserves {A} (m : PM A) (Q : A -> Prop) : Prop :=
  forall s, pager_wf s -> pager_wf (snd (m s)) /\ (forall a, fst (m s) = Done a -> Q a).

Module Scenarios.

Definition FUEL : nat := 64.

(** [key_i = [i; 32]] *)
Definition key_i (i : nat) : Hash := repeat (Z.of_nat i) 32.

Fixpoint btree_puts (fuel : nat) (kvs : list (Hash * Offset)) : PM unit :=
  match kvs with
  | [] => pret tt
  | (k, v) :: kvs' => let! _ := BTree.put fuel k v in btree_puts fuel kvs'
  end.

Definition fresh_tree : pager := snd (BTree.new []).

(** An index whose root, page 1, is the leaf [n] and whose head page 0
    points to it; both pages cached and clean, the file in sync.  [BTree.new]
    on an empty file leaves [leaf_root_tree leaf_init]. *)
Definition leaf_root_tree (n : leaf_node) : pager :=
  mk_pager [CHead 1%N; CLeaf n] 2
    (<[1%N := mk_page (CLeaf n) false]> (<[0%N := mk_page (CHead 1%N) false]> ∅)).

(** [(key_i, Offset(i))] for [i] in [0 .. n). *)
Definition workload (n : nat) : list (Hash * Offset) :=
  map (fun i => (key_i i, N.of_nat i)) (seq 0 n).

Definition run_255 : outcome unit * pager := btree_puts FUEL (workload 255) fresh_tree.
Definition run_100 : outcome unit * pager := btree_puts FUEL (workload 100) fresh_tree.

Definition get_ok (s : pager) (i : nat) : bool :=
  match fst (BTree.get FUEL (key_i i) s) with
  | Done (Some o) => N.eqb o (N.of_nat i)
  | _ => false
  end.

Definition fresh_db : Database.database := snd (Database.new (Database.mk_dir [] [])).

Fixpoint db_puts (fuel : nat) (ps : list (list Z)) : Database.DM unit :=
  fun db =>
    match ps with
    | [] => (Done tt, db)
    | p :: ps' =>
        match Database.put fuel p db with
        | (Done _, db') => db_puts fuel ps' db'
        | (Failed e, db') => (Failed e, db')
        | (Panicked, db') => (Panicked, db')
        | (OutOfFuel, db') => (OutOfFuel, db')
        end
    end.

(** put("a"); put("b"); get(H("a")); put("c"); get(H("b")) *)
Definition put_get_put_trace
    : outcome string * outcome string * outcome (list Z) * outcome string
      * outcome (list Z) :=
  let '(ra, d1) := Database.put FUEL [97%Z] fresh_db in
  let '(rb, d2) := Database.put FUEL [98%Z] d1 in
  let '(ga, d3) := Database.get FUEL (gen_waste_hash [97%Z]) d2 in
  let '(rc, d4) := Database.put FUEL [99%Z] d3 in
  let '(gb, _) := Database.get FUEL (gen_waste_hash [98%Z]) d4 in
  (ra, rb, ga, rc, gb).

(** One-byte payloads [[i]] for [i] in [0 .. 100), then close and reopen. *)
Definition payloads_100 : list (list Z) := map (fun i => [Z.of_nat i]) (seq 0 100).
Definition db_100 : Database.database := snd (db_puts FUEL payloads_100 fresh_db).
Definition db_100_reopened : outcome unit * Database.database :=
  Database.new (Database.close db_100).

(** Hash strings of the right length: all zeros, one with a character that
    is not an ASCII hex digit, one with a sign character. *)
Definition zero_hash : string := String.concat "" (repeat "00" 32).
Definition zz_hash : string := String.concat "" (repeat "zz" 32).
Definition plus0_hash : string := String.concat "" (repeat "+0" 32).
Definition short_hash : string := "00".

(** Small nodes: capacity 4, unit header, hash keys, [nat] values. *)
Definition small_cap : nat := 4.
Definition small_node0 : BasicNode.node unit Hash nat :=
  BasicNode.init small_cap (BasicNode.uninit small_cap tt).
Definition small_put (n : BasicNode.node unit Hash nat) (k : Hash) (v : nat)
    : BasicNode.node unit Hash nat :=
  match BasicNode.put hash_le hash_eqb n k v with Some n' => n' | None => n end.
Definition small_node1 : BasicNode.node unit Hash nat := small_put small_node0 [2%Z] 20.
Definition small_node2 : BasicNode.node unit Hash nat := small_put small_node1 [1%Z] 10.

Definition small_node3 : BasicNode.node unit Hash nat := small_put small_node2 [3%Z] 30.
Definition small_node4 : BasicNode.node unit Hash nat := small_put small_node3 [4%Z] 40.

(** An internal node with rightmost child page 5 and one record
    [(key_i 3, page 9)]. *)
Definition small_internal : internal_node :=
  match node_put (internal_init 5%N) (key_i 3) 9%N with
  | Some n => n
  | None => internal_init 5%N
  end.

End Scenarios.

(* ================================================================= *)
(** * Proofs *)
(* ================================================================= *)

Module BasicNodeFacts.
Import BasicNode.

(** Strictly sorted lists, read by index. *)
Lemma StronglySorted_lookup {A} (R : A -> A -> Prop) (l : list A) i j x y :
  StronglySorted R l -> i < j -> l !! i = Some x -> l !! j = Some y -> R x y.
Proof.
  intros Hs. revert i j. induction Hs as [|a l Hs IH Hall]; intros i j Hij Hi Hj.
  - done.
  - destruct i as [|i], j as [|j]; simpl in *; try lia.
    + injection Hi as <-. rewrite Forall_forall in Hall.
      apply Hall. by eapply list_elem_of_lookup_2.
    + apply (IH i j); auto with lia.
Qed.

Lemma StronglySorted_insert_middle {A} (R : A -> A -> Prop) (l : list A) off x :
  StronglySorted R l ->
  (forall i y, i < off -> l !! i = Some y -> R y x) ->
  (forall i y, off <= i -> l !! i = Some y -> R x y) ->
  StronglySorted R (take off l ++ x :: drop off l).
Proof.
  intros Hs Hlt Hge. pose proof Hs as Hs0. rewrite <- (take_drop off l) in Hs.
  apply StronglySorted_app in Hs as (_ & Hs1 & Hs2).
  apply StronglySorted_app_2; [|done|].
  - intros y z Hy Hz. apply list_elem_of_lookup_1 in Hy as [i Hi].
    rewrite lookup_take_Some in Hi. destruct Hi as [Hi Hio].
    apply elem_of_cons in Hz as [->|Hz]; [by apply (Hlt i)|].
    apply list_elem_of_lookup_1 in Hz as [j Hj]. rewrite lookup_drop in Hj.
    apply (StronglySorted_lookup R l i (off + j)); auto with lia.
  - constructor; [done|].
    apply Forall_forall. intros y Hy. apply list_elem_of_lookup_1 in Hy as [i Hi].
    rewrite lookup_drop in Hi. apply (Hge (off + i)); auto with lia.
Qed.

Section Facts.
Context {H K V : Type}.
Variable key_le : K -> K -> bool.
Variable key_eqb : K -> K -> bool.
Variable cap : nat.
Local Abbreviation node := (node H K V).
Local Abbreviation cell := (cell K V).

(** ** The free-list traversal *)

Lemma free_runs_unfold (f : nat) (hp : list cell) (id : nat) :
  free_runs f hp id =
    if id =? invalid then Some []
    else match f with
      | O => None
      | S f' => match hp !! id with
                | Some (Free length next) =>
                    rs ← free_runs f' hp next; Some ((id, length) :: rs)
                | _ => None
                end
      end.
Proof. by destruct f. Qed.

Lemma free_runs_inv (f : nat) (hp : list cell) (id : nat) rs :
  free_runs f hp id = Some rs ->
  (id = invalid /\ rs = []) \/
  (id <> invalid /\ exists f' l next rs', f = S f' /\
     hp !! id = Some (Free l next) /\ free_runs f' hp next = Some rs' /\
     rs = (id, l) :: rs').
Proof.
  rewrite free_runs_unfold. destruct (Nat.eqb_spec id invalid) as [->|Hne].
  - intros [= <-]. by left.
  - destruct f as [|f']; [done|].
    destruct (hp !! id) as [[l next| |]|] eqn:E; try done.
    destruct (free_runs f' hp next) as [rs'|] eqn:E'; simpl; [|done].
    intros [= <-]. right. split; [done|]. by exists f', l, next, rs'.
Qed.

Lemma free_runs_fuel rs : forall (f f' : nat) (hp : list cell) (id : nat),
  free_runs f hp id = Some rs -> length rs <= f' -> free_runs f' hp id = Some rs.
Proof.
  induction rs as [|r rs IH]; intros f f' hp id Hf Hl.
  - apply free_runs_inv in Hf as [[-> _]|(_ & f0 & l & next & rs' & _ & _ & _ & [=])].
    by destruct f'.
  - apply free_runs_inv in Hf as [[_ [=]]|(Hne & f0 & l & next & rs' & -> & Hc & Hr & [= -> ->])].
    destruct f' as [|f']; simpl in Hl; [lia|].
    rewrite free_runs_unfold. apply Nat.eqb_neq in Hne. rewrite Hne, Hc.
    by rewrite (IH f0 f' hp next Hr ltac:(lia)).
Qed.

Lemma free_runs_insert rs : forall (f : nat) (hp : list cell) (id j : nat) (c : cell),
  free_runs f hp id = Some rs -> j ∉ map fst rs ->
  free_runs f (<[j := c]> hp) id = Some rs.
Proof.
  induction rs as [|r rs IH]; intros f hp id j c Hf Hj.
  - apply free_runs_inv in Hf as [[-> _]|(_ & f0 & l & next & rs' & _ & _ & _ & [=])].
    by destruct f.
  - apply free_runs_inv in Hf as [[_ [=]]|(Hne & f0 & l & next & rs' & -> & Hc & Hr & [= -> ->])].
    simpl in Hj. apply not_elem_of_cons in Hj as [Hj1 Hj2].
    rewrite free_runs_unfold. apply Nat.eqb_neq in Hne. rewrite Hne.
    rewrite list_lookup_insert_ne by done. rewrite Hc.
    by rewrite (IH f0 hp next j c Hr Hj2).
Qed.

Lemma run_heads_in_ids (rs : list (nat * nat)) :
  Forall (fun r => 1 <= r.2) rs -> forall x, x ∈ map fst rs -> x ∈ run_ids rs.
Proof.
  induction 1 as [|r rs Hr Hrs IH]; intros x Hx; simpl in Hx; [by apply elem_of_nil in Hx|].
  unfold run_ids; simpl. apply elem_of_app.
  apply elem_of_cons in Hx as [->|Hx].
  - left. apply elem_of_seq. lia.
  - right. by apply IH.
Qed.

Lemma length_runs_le_ids (rs : list (nat * nat)) :
  Forall (fun r => 1 <= r.2) rs -> length rs <= length (run_ids rs).
Proof.
  induction 1 as [|r rs Hr Hrs IH]; [done|].
  unfold run_ids in *; simpl. rewrite length_app, length_seq. lia.
Qed.

(** ** Reading records *)

Lemma record_set_cell (n : node) (j x : nat) (c : cell) :
  x <> j -> record (set_cell n j c) x = record n x.
Proof.
  intros Hx. unfold record, set_cell; simpl. by rewrite list_lookup_insert_ne.
Qed.

Lemma mapM_record_set_cell (n : node) (j : nat) (c : cell) (l : list nat) :
  j ∉ l -> mapM (record (set_cell n j c)) l = mapM (record n) l.
Proof.
  induction l as [|x l IH]; intros Hj; [done|].
  apply not_elem_of_cons in Hj as [Hx Hl]. simpl.
  rewrite record_set_cell by done. by rewrite IH.
Qed.

Lemma node_records_lookup (n : node) recs i id :
  node_records n = Some recs -> slots n !! i = Some id -> record n id = recs !! i.
Proof.
  intros Hr Hi. apply mapM_Some_1 in Hr.
  destruct (Forall2_lookup_l _ _ _ _ _ Hr Hi) as (y & Hy & Hid).
  by rewrite Hy.
Qed.

Lemma node_records_length (n : node) recs :
  node_records n = Some recs -> length recs = length (slots n).
Proof. intros Hr. apply mapM_Some_1 in Hr. by rewrite (Forall2_length _ _ _ Hr). Qed.

(** ** The key order *)

Hypothesis Hord : key_order key_le key_eqb.

Lemma le_total a b : key_le a b = true \/ key_le b a = true.
Proof. by apply (key_le_total key_le key_eqb Hord). Qed.
Lemma le_trans a b c : key_le a b = true -> key_le b c = true -> key_le a c = true.
Proof. by apply (key_le_trans key_le key_eqb Hord). Qed.
Lemma le_refl a : key_le a a = true.
Proof. by destruct (le_total a a). Qed.
Lemma eqb_true a b : key_eqb a b = true <-> a = b.
Proof. by apply (key_eqb_spec key_le key_eqb Hord). Qed.
Lemma lt_le a b : key_lt key_le a b -> key_le a b = true.
Proof. unfold key_lt. intros Hab. by destruct (le_total a b) as [?|Hba]; [|rewrite Hba in Hab]. Qed.
Lemma lt_irrefl a : ~ key_lt key_le a a.
Proof. unfold key_lt. by rewrite le_refl. Qed.
Lemma lt_le_trans a b c : key_lt key_le a b -> key_le b c = true -> key_lt key_le a c.
Proof.
  unfold key_lt. intros Hab Hbc.
  destruct (key_le c a) eqn:Hca; [|done].
  by rewrite (le_trans b c a Hbc Hca) in Hab.
Qed.
Lemma le_lt_trans a b c : key_le a b = true -> key_lt key_le b c -> key_lt key_le a c.
Proof.
  unfold key_lt. intros Hab Hbc.
  destruct (key_le c a) eqn:Hca; [|done].
  by rewrite (le_trans c a b Hca Hab) in Hbc.
Qed.

(** ** [lower_bound] *)

(** The binary search keeps every key left of [left] below [key] and
    every key from [right] on at or above it. *)
Lemma lower_bound_loop_spec (fuel : nat) (n : node) (key : K) recs :
  forall left right,
  node_records n = Some recs ->
  StronglySorted (key_lt key_le) (map fst recs) ->
  left <= right <= length recs -> right - left <= fuel ->
  (forall i x, i < left -> recs !! i = Some x -> key_lt key_le x.1 key) ->
  (forall i x, right <= i -> recs !! i = Some x -> key_le key x.1 = true) ->
  exists off, lower_bound_loop key_le fuel n key left right = Some off /\
    off <= length recs /\
    (forall i x, i < off -> recs !! i = Some x -> key_lt key_le x.1 key) /\
    (forall i x, off <= i -> recs !! i = Some x -> key_le key x.1 = true).
Proof.
  induction fuel as [|fuel IH]; intros left right Hr Hs Hlr Hf Hlo Hhi.
  - assert (left = right) as <- by lia. exists left. simpl. auto with lia.
  - cbn [lower_bound_loop]. destruct (Nat.eqb_spec left right) as [<-|Hne].
    { exists left. auto with lia. }
    set (mid := (left + right) / 2).
    assert (left <= mid < right) as Hmid by (subst mid; pose proof (Nat.div_mod_eq (left + right) 2);
        pose proof (Nat.mod_upper_bound (left + right) 2); lia).
    pose proof (node_records_length n recs Hr) as Hlen.
    destruct (lookup_lt_is_Some_2 (slots n) mid ltac:(lia)) as [id Hid].
    destruct (lookup_lt_is_Some_2 recs mid ltac:(lia)) as [[mk mv] Hm].
    rewrite Hid; simpl.
    rewrite (node_records_lookup n recs mid id Hr Hid), Hm; simpl.
    assert (Hsorted : forall i j x y, i < j -> recs !! i = Some x -> recs !! j = Some y ->
              key_lt key_le x.1 y.1).
    { intros i j x y Hij Hi Hj. apply (StronglySorted_lookup _ _ i j _ _ Hs Hij);
        rewrite list_lookup_fmap; [rewrite Hi|rewrite Hj]; done. }
    destruct (key_le key mk) eqn:Hk.
    + apply IH; auto with lia.
      intros i x Hi Hx. destruct (decide (i = mid)) as [->|Hne'].
      * rewrite Hm in Hx. by injection Hx as <-.
      * apply (le_trans _ mk); [done|]. apply lt_le.
        apply (Hsorted mid i (mk, mv) x); auto with lia.
    + apply IH; auto with lia.
      intros i x Hi Hx. destruct (decide (i = mid)) as [->|Hne'].
      * rewrite Hm in Hx. injection Hx as <-. done.
      * destruct (decide (i < left)) as [|Hil]; [by apply (Hlo i)|].
        apply (lt_le_trans _ mk).
        -- apply (Hsorted i mid x (mk, mv)); auto with lia.
        -- destruct (le_total mk key) as [?|Hkm]; [done|]. by rewrite Hkm in Hk.
Qed.

Lemma lower_bound_spec (n : node) (key : K) recs :
  node_records n = Some recs -> records_length n = length (slots n) ->
  StronglySorted (key_lt key_le) (map fst recs) ->
  exists off, lower_bound key_le n key = Some off /\ off <= length recs /\
    (forall i x, i < off -> recs !! i = Some x -> key_lt key_le x.1 key) /\
    (forall i x, off <= i -> recs !! i = Some x -> key_le key x.1 = true).
Proof.
  intros Hr Hl Hs. pose proof (node_records_length n recs Hr).
  unfold lower_bound. apply lower_bound_loop_spec; auto with lia.
  intros i x Hi Hx. apply lookup_lt_Some in Hx. exfalso. lia.
Qed.

(** ** The allocator *)

Lemma free_runs_length (f : nat) : forall (hp : list cell) id rs,
  free_runs f hp id = Some rs -> length rs <= f.
Proof.
  induction f as [|f IH]; intros hp id rs Hf;
    apply free_runs_inv in Hf as [[_ ->]|(_ & f' & l & next & rs' & [=] & _ & Hr & ->)];
    simpl; try lia.
  subst f'. apply IH in Hr. lia.
Qed.

Lemma free_list_ok_perm (n n' : node) rs rs' :
  free_list_ok cap n rs ->
  free_runs 256 (heap n') (first_free_record_id n') = Some rs' ->
  Forall (fun r => 1 <= r.2) rs' ->
  run_ids rs' ++ slots n' ≡ₚ run_ids rs ++ slots n ->
  free_list_ok cap n' rs'.
Proof.
  intros (_ & _ & Hnd & Hmem) Hf Hpos Hp. split; [done|]. split; [done|].
  split; [by rewrite Hp|]. intros i. rewrite Hp. apply Hmem.
Qed.

Lemma alloc_new_record_spec (n : node) rs :
  free_list_ok cap n rs -> cap <= 255 -> length (heap n) = cap ->
  length (slots n) < cap ->
  exists id n1 rs1, alloc_new_record n = Some (id, n1) /\
    hdr n1 = hdr n /\ records_length n1 = records_length n /\
    slots n1 = slots n /\ length (heap n1) = length (heap n) /\
    node_records n1 = node_records n /\
    free_runs 256 (heap n1) (first_free_record_id n1) = Some rs1 /\
    Forall (fun r => 1 <= r.2) rs1 /\
    run_ids rs1 ++ [id] ≡ₚ run_ids rs /\ id ∈ run_ids rs.
Proof.
  intros Hok Hcap Hheap Hlt. pose proof Hok as (Hf & Hpos & Hnd & Hmem).
  assert (Hne : run_ids rs <> []).
  { intros Hnil. rewrite Hnil in Hnd, Hmem. simpl in Hnd, Hmem.
    assert (Hsub : forall i, i < cap -> i ∈ slots n) by (intros i; apply Hmem).
    assert (length (seq 0 cap) <= length (slots n)).
    { apply submseteq_length, NoDup_submseteq; [apply NoDup_seq|].
      intros i Hi. apply Hsub. apply elem_of_seq in Hi. lia. }
    rewrite length_seq in *. lia. }
  apply free_runs_inv in Hf as [[_ ->]|(Hinv & f' & l & next & rs0 & Hf' & Hc & Hr0 & ->)];
    [done|].
  injection Hf' as <-. rewrite Forall_cons in Hpos. destruct Hpos as [Hl1 Hpos0]. simpl in Hl1.
  set (first := first_free_record_id n) in *.
  assert (Hids : run_ids ((first, l) :: rs0) = seq first l ++ run_ids rs0) by done.
  rewrite Hids in Hnd, Hmem.
  assert (Hfirst : first < cap) by (apply Hmem; rewrite !elem_of_app; left; left; apply elem_of_seq; lia).
  assert (Hlast : first + (l - 1) < cap) by (apply Hmem; rewrite !elem_of_app; left; left; apply elem_of_seq; lia).
  rewrite <- app_assoc in Hnd. apply NoDup_app in Hnd as (Hnd1 & Hdisj & Hnd2).
  unfold alloc_new_record. fold first.
  rewrite (proj2 (Nat.eqb_neq first invalid) Hinv), Hc.
  destruct (Nat.eqb_spec l 1) as [->|Hl].
  - exists first, (set_first_free n next), rs0.
    split; [done|]. split; [done|]. split; [done|]. split; [done|].
    split; [done|]. split; [reflexivity|]. split.
    { cbn [heap first_free_record_id set_first_free].
      apply (free_runs_fuel rs0 255); [exact Hr0|].
      apply free_runs_length in Hr0. lia. }
    split; [exact Hpos0|]. split.
    + rewrite Hids. cbn [seq app]. by rewrite Permutation_app_comm.
    + rewrite Hids. apply elem_of_app. left. apply elem_of_seq. lia.
  - exists (rid_offset first (l - 1)), (set_cell n first (Free (l - 1) next)),
      ((first, l - 1) :: rs0).
    assert (Hfr : first ∉ map fst rs0).
    { intros Hin. apply (Hdisj first).
      - apply elem_of_seq. lia.
      - apply elem_of_app. left. by apply run_heads_in_ids. }
    assert (Hrid : rid_offset first (l - 1) = first + (l - 1)).
    { unfold rid_offset. apply Nat.mod_small. lia. }
    split; [reflexivity|]. split; [done|]. split; [done|]. split; [done|].
    split.
    { cbn [heap set_cell]. by rewrite length_insert. }
    split.
    { unfold node_records. cbn [slots set_cell]. apply mapM_record_set_cell.
      intros Hin. apply (Hdisj first); [apply elem_of_seq; lia|].
      apply elem_of_app. by right. }
    split.
    { cbn [heap first_free_record_id set_cell]. fold first.
      rewrite free_runs_unfold.
      rewrite (proj2 (Nat.eqb_neq first invalid) Hinv).
      rewrite list_lookup_insert_eq by lia.
      by rewrite (free_runs_insert rs0 255 (heap n) next first _ Hr0 Hfr). }
    split; [constructor; [simpl; lia|exact Hpos0]|]. split.
    + rewrite Hids, Hrid. unfold run_ids at 1. cbn [flat_map fst snd]. fold (run_ids rs0).
      replace (seq first l) with (seq first (S (l - 1))) by (f_equal; lia). rewrite seq_S.
      rewrite <- !app_assoc. apply Permutation_app_head. by rewrite Permutation_app_comm.
    + rewrite Hids, Hrid. apply elem_of_app. left. apply elem_of_seq. lia.
Qed.

(** ** [put] *)

Lemma mapM_insert_middle {A B} (f : A -> option B) (l : list A) (r : list B) off x y :
  mapM f l = Some r -> f x = Some y ->
  mapM f (take off l ++ x :: drop off l) = Some (take off r ++ y :: drop off r).
Proof.
  intros Hl Hx. apply mapM_Some_2. apply mapM_Some_1 in Hl.
  apply Forall2_app; [by apply Forall2_take|].
  constructor; [done|]. by apply Forall2_drop.
Qed.

Lemma map_insert_middle {A B} (f : A -> B) (l : list A) off x :
  map f (take off l ++ x :: drop off l) = take off (map f l) ++ f x :: drop off (map f l).
Proof. by rewrite map_app, firstn_map; simpl; rewrite skipn_map. Qed.

Lemma free_ids_full (n : node) rs :
  free_list_ok cap n rs -> length (slots n) = cap -> run_ids rs = [].
Proof.
  intros (_ & _ & Hnd & Hmem) Hlen.
  assert (Hle : length (run_ids rs ++ slots n) <= length (seq 0 cap)).
  { apply submseteq_length, NoDup_submseteq; [done|].
    intros i Hi. apply elem_of_seq. apply Hmem in Hi. lia. }
  rewrite length_app, length_seq in Hle. destruct (run_ids rs); [done|simpl in Hle; lia].
Qed.

Lemma alloc_new_record_full (n : node) rs :
  free_list_ok cap n rs -> length (slots n) = cap -> alloc_new_record n = None.
Proof.
  intros Hok Hlen. pose proof (free_ids_full n rs Hok Hlen) as Hnil.
  destruct Hok as (Hf & Hpos & _).
  apply free_runs_inv in Hf as [[Hinv _]|(_ & f' & l & next & rs' & _ & _ & _ & ->)].
  - unfold alloc_new_record. by rewrite Hinv.
  - rewrite Forall_cons in Hpos. destruct Hpos as [Hl _]. unfold run_ids in Hnil.
    simpl in Hnil, Hl. destruct l; [lia|done].
Qed.

Lemma insert_fresh_spec (n : node) rs recs off k v :
  cap <= 255 -> length (heap n) = cap -> records_length n = length (slots n) ->
  free_list_ok cap n rs -> node_records n = Some recs ->
  length (slots n) < cap -> off <= length (slots n) ->
  exists id n', insert_fresh n off k v = Some n' /\ id ∈ run_ids rs /\
    hdr n' = hdr n /\ records_length n' = S (records_length n) /\
    slots n' = take off (slots n) ++ id :: drop off (slots n) /\
    heap n' !! id = Some (Used k v) /\
    length (heap n') = cap /\ records_length n' = length (slots n') /\
    node_records n' = Some (take off recs ++ (k, v) :: drop off recs) /\
    exists rs', free_list_ok cap n' rs'.
Proof.
  intros Hcap Hheap Hrl Hok Hrec Hlt Hoff.
  destruct (alloc_new_record_spec n rs Hok Hcap Hheap Hlt)
    as (id & n1 & rs1 & Ha & Hh1 & Hl1 & Hs1 & Hhp1 & Hr1 & Hf1 & Hpos1 & Hp1 & Hid).
  pose proof Hok as (_ & _ & Hnd & Hmem).
  assert (Hidcap : id < cap) by (apply Hmem, elem_of_app; by left).
  assert (Hidslots : id ∉ slots n).
  { intros Hin. apply NoDup_app in Hnd as (_ & Hdisj & _). by apply (Hdisj id). }
  assert (Hid1 : id ∉ run_ids rs1).
  { intros Hin. rewrite <- Hp1 in Hnd. rewrite <- app_assoc in Hnd.
    apply NoDup_app in Hnd as (_ & Hdisj & _). apply (Hdisj id Hin).
    apply elem_of_app. left. by apply list_elem_of_singleton. }
  unfold insert_fresh. rewrite Ha. cbn [mbind option_bind].
  set (n' := set_records_length _ _).
  exists id, n'. split; [done|]. split; [done|].
  split; [done|]. split; [subst n'; simpl; lia|].
  split; [subst n'; simpl; by rewrite Hs1|].
  split; [subst n'; simpl; apply list_lookup_insert_eq; lia|].
  split; [subst n'; simpl; rewrite length_insert; lia|].
  split.
  { subst n'. simpl. rewrite length_app, length_take, length_cons, length_drop, Hs1. lia. }
  split.
  { unfold node_records. subst n'; cbn [slots set_records_length insert_new_record_id set_slots set_cell].
    rewrite Hs1. apply mapM_insert_middle.
    - change (mapM (record (set_cell n1 id (Used k v))) (slots n) = Some recs).
      rewrite mapM_record_set_cell by done. rewrite <- Hs1. unfold node_records in Hr1.
      by rewrite Hr1.
    - unfold record. simpl. rewrite list_lookup_insert_eq; [done|lia]. }
  exists rs1. apply (free_list_ok_perm n n' rs rs1 Hok).
  - subst n'. cbn [heap first_free_record_id set_records_length insert_new_record_id set_slots set_cell].
    apply free_runs_insert; [done|]. intros Hin. apply Hid1. by apply run_heads_in_ids.
  - done.
  - subst n'. cbn [slots set_records_length insert_new_record_id set_slots set_cell].
    rewrite Hs1, <- Hp1, <- app_assoc. apply Permutation_app_head. simpl.
    rewrite <- Permutation_middle. by rewrite take_drop.
Qed.

Lemma node_records_overwrite (n : node) recs off id k x v :
  NoDup (slots n) -> node_records n = Some recs ->
  slots n !! off = Some id -> recs !! off = Some (k, x) ->
  node_records (set_cell n id (Used k v)) = Some (<[off := (k, v)]> recs).
Proof.
  intros Hnd Hr Hid Hoff. unfold node_records in *. cbn [slots set_cell].
  apply mapM_Some_2. apply mapM_Some_1 in Hr.
  pose proof (Forall2_length _ _ _ Hr) as Hlen.
  apply Forall2_lookup. intros i. apply Forall2_lookup with (i := i) in Hr.
  destruct (decide (i = off)) as [->|Hne].
  - rewrite Hid, Hoff in Hr. inversion Hr as [a b Hab|].
    rewrite Hid, list_lookup_insert_eq by (apply lookup_lt_Some in Hoff; lia).
    constructor. unfold record. cbn [heap set_cell].
    rewrite list_lookup_insert_eq; [done|].
    unfold record in Hab. destruct (heap n !! id) eqn:E; [|done].
    by apply lookup_lt_Some in E.
  - rewrite list_lookup_insert_ne by done.
    inversion Hr as [a b Hab Ha Hb|Ha Hb]; constructor.
    rewrite record_set_cell; [done|]. intros ->.
    apply Hne. by apply (NoDup_lookup (slots n) i off id).
Qed.

Lemma map_fst_overwrite (recs : list (K * V)) off k x v :
  recs !! off = Some (k, x) -> map fst (<[off := (k, v)]> recs) = map fst recs.
Proof.
  intros Hoff. change (fst <$> <[off := (k, v)]> recs = fst <$> recs).
  rewrite list_fmap_insert. apply list_insert_id. by rewrite list_lookup_fmap, Hoff.
Qed.

(** A record whose key is [key] sits at the lower bound. *)
Lemma lower_bound_hit (recs : list (K * V)) off key j x :
  StronglySorted (key_lt key_le) (map fst recs) ->
  (forall i y, i < off -> recs !! i = Some y -> key_lt key_le y.1 key) ->
  (forall i y, off <= i -> recs !! i = Some y -> key_le key y.1 = true) ->
  recs !! j = Some (key, x) -> j = off.
Proof.
  intros Hs Hlo Hhi Hj.
  destruct (decide (j < off)) as [Hlt|Hge].
  { exfalso. apply (lt_irrefl key). exact (Hlo j _ Hlt Hj). }
  destruct (decide (j = off)) as [|Hne]; [done|]. exfalso.
  destruct (lookup_lt_is_Some_2 recs off) as [y Hy].
  { apply lookup_lt_Some in Hj. lia. }
  assert (key_lt key_le y.1 key).
  { apply (StronglySorted_lookup _ _ off j _ _ Hs); [lia| |];
      rewrite list_lookup_fmap; [rewrite Hy|rewrite Hj]; done. }
  apply (lt_irrefl key). apply (le_lt_trans _ y.1); [|done].
  apply (Hhi off); [lia|done].
Qed.

Lemma wf_unfold (n : node) :
  wf key_le cap n <->
  cap <= 255 /\ length (heap n) = cap /\ records_length n = length (slots n) /\
  (exists rs, free_list_ok cap n rs) /\
  (exists recs, node_records n = Some recs /\ StronglySorted (key_lt key_le) (map fst recs)).
Proof. done. Qed.

Lemma free_list_ok_NoDup_slots (n : node) rs :
  free_list_ok cap n rs -> NoDup (slots n).
Proof. intros (_ & _ & Hnd & _). by apply NoDup_app in Hnd as (_ & _ & ?). Qed.

(** A fresh record at the lower bound keeps a node well-formed when the
    key there (if any) differs from the new one. *)
Lemma insert_fresh_wf (n n' : node) recs off k v :
  wf key_le cap n -> node_records n = Some recs ->
  off <= length recs ->
  (forall i y, i < off -> recs !! i = Some y -> key_lt key_le y.1 k) ->
  (forall i y, off <= i -> recs !! i = Some y -> key_le k y.1 = true) ->
  (forall y, recs !! off = Some y -> y.1 <> k) ->
  insert_fresh n off k v = Some n' -> wf key_le cap n'.
Proof.
  intros (Hcap & Hheap & Hrl & [rs Hok] & [recs0 [Hr0 Hs]]) Hr Hoff Hlo Hhi Hne Hins.
  rewrite Hr in Hr0. injection Hr0 as <-.
  pose proof (node_records_length n recs Hr) as Hlen.
  destruct (decide (length (slots n) < cap)) as [Hlt|Hge].
  2:{ unfold insert_fresh in Hins.
      pose proof Hok as (_ & _ & Hnd & Hmem).
      assert (length (slots n) = cap).
      { assert (length (slots n) <= length (seq 0 cap)); [|rewrite length_seq in *; lia].
        apply submseteq_length, NoDup_submseteq; [by apply NoDup_app in Hnd as (_&_&?)|].
        intros i Hi. apply elem_of_seq. enough (i < cap) by lia.
        apply Hmem, elem_of_app. by right. }
      by rewrite (alloc_new_record_full n rs) in Hins. }
  destruct (insert_fresh_spec n rs recs off k v Hcap Hheap Hrl Hok Hr Hlt ltac:(lia))
    as (id & n2 & Hins2 & _ & _ & _ & _ & _ & Hhp & Hrl' & Hr' & Hok').
  rewrite Hins in Hins2. injection Hins2 as <-.
  split; [done|]. split; [done|]. split; [done|]. split; [done|].
  exists (take off recs ++ (k, v) :: drop off recs). split; [done|].
  rewrite map_insert_middle. apply StronglySorted_insert_middle; [done| |].
  - intros i y Hi Hy. rewrite list_lookup_fmap in Hy.
    destruct (recs !! i) as [[yk yv]|] eqn:E; [|done]. injection Hy as <-.
    exact (Hlo i (yk, yv) Hi E).
  - intros i y Hi Hy. rewrite list_lookup_fmap in Hy.
    destruct (recs !! i) as [[yk yv]|] eqn:E; [|done]. injection Hy as <-.
    unfold key_lt. simpl. destruct (key_le yk k) eqn:Hyk; [|done].
    exfalso. pose proof (Hhi i (yk, yv) Hi E) as Hkyk. simpl in Hkyk.
    assert (yk = k) as -> by (apply (key_le_antisym key_le key_eqb Hord); done).
    assert (i = off) as -> by exact (lower_bound_hit recs off k i yv Hs Hlo Hhi E).
    by apply (Hne (k, yv)).
Qed.

Lemma overwrite_wf (n : node) recs off id k x v :
  wf key_le cap n -> node_records n = Some recs ->
  slots n !! off = Some id -> recs !! off = Some (k, x) ->
  wf key_le cap (set_cell n id (Used k v)).
Proof.
  intros (Hcap & Hheap & Hrl & [rs Hok] & [recs0 [Hr0 Hs]]) Hr Hid Hoff.
  rewrite Hr in Hr0. injection Hr0 as <-.
  pose proof (free_list_ok_NoDup_slots n rs Hok) as Hnd.
  split; [done|]. split; [by cbn [heap set_cell]; rewrite length_insert|].
  split; [done|]. split.
  - exists rs. apply (free_list_ok_perm n _ rs rs Hok); [|by destruct Hok as (_&?&_)|done].
    cbn [heap first_free_record_id set_cell]. apply free_runs_insert; [by destruct Hok|].
    intros Hin. destruct Hok as (_ & Hpos & Hnd' & _).
    apply NoDup_app in Hnd' as (_ & Hdisj & _). apply (Hdisj id).
    + by apply run_heads_in_ids.
    + by apply list_elem_of_lookup_2 with off.
  - exists (<[off := (k, v)]> recs). split.
    + by apply (node_records_overwrite n recs off id k x v).
    + by rewrite (map_fst_overwrite recs off k x v).
Qed.

Lemma put_wf (n n' : node) k v :
  wf key_le cap n -> put key_le key_eqb n k v = Some n' -> wf key_le cap n'.
Proof.
  intros Hwf Hput. pose proof Hwf as (Hcap & Hheap & Hrl & [rs Hok] & [recs [Hr Hs]]).
  pose proof (node_records_length n recs Hr) as Hlen.
  destruct (lower_bound_spec n k recs Hr Hrl Hs) as (off & Hlb & Hoff & Hlo & Hhi).
  unfold put in Hput. rewrite Hlb in Hput. cbn [mbind option_bind] in Hput.
  destruct (Nat.eqb_spec off (records_length n)) as [Heq|Hneq]; simpl in Hput.
  - apply (insert_fresh_wf n n' recs off k v); try done.
    intros y Hy. apply lookup_lt_Some in Hy. lia.
  - destruct (lookup_lt_is_Some_2 (slots n) off) as [id Hid]; [lia|].
    rewrite Hid in Hput. simpl in Hput.
    rewrite (node_records_lookup n recs off id Hr Hid) in Hput.
    destruct (recs !! off) as [[k' x]|] eqn:Ek; [|done]. simpl in Hput.
    destruct (key_eqb k' k) eqn:Heqb.
    + apply eqb_true in Heqb as ->. injection Hput as <-.
      by apply (overwrite_wf n recs off id k x v).
    + apply (insert_fresh_wf n n' recs off k v); try done.
      intros y Hy. rewrite Ek in Hy. injection Hy as <-. simpl. intros ->.
      rewrite (proj2 (eqb_true k k) eq_refl) in Heqb. done.
Qed.


(** ** Removing the rightmost record *)

Lemma dealloc_last (n : node) L x :
  wf key_le cap n -> node_records n = Some (L ++ [x]) ->
  exists id n', slots n !! (records_length n - 1) = Some id /\ record n id = Some x /\
    dealloc_record n (records_length n - 1) = Some n' /\
    wf key_le cap n' /\ node_records n' = Some L /\ hdr n' = hdr n /\
    records_length n' = records_length n - 1.
Proof.
  intros (Hcap & Hheap & Hrl & [rs Hok] & [recs [Hr Hs]]) HrL.
  rewrite HrL in Hr. injection Hr as <-.
  pose proof (node_records_length n _ HrL) as Hlen. rewrite length_app in Hlen. simpl in Hlen.
  assert (Hoff : records_length n - 1 = length L) by lia.
  rewrite Hoff.
  destruct (lookup_lt_is_Some_2 (slots n) (length L)) as [id Hid]; [lia|].
  assert (Hrec : record n id = Some x).
  { rewrite (node_records_lookup n _ (length L) id HrL Hid).
    by rewrite lookup_app_r, Nat.sub_diag by lia. }
  assert (Hsl : slots n = take (length L) (slots n) ++ [id]).
  { rewrite <- (take_drop_middle (slots n) (length L) id Hid) at 1.
    by rewrite drop_ge by lia. }
  pose proof Hok as (Hf & Hpos & Hnd & Hmem).
  assert (Hidcap : id < cap) by (apply Hmem, elem_of_app; right; by apply list_elem_of_lookup_2 with (length L)).
  assert (Hidrs : id ∉ run_ids rs).
  { intros Hin. apply NoDup_app in Hnd as (_ & Hdisj & _). apply (Hdisj id Hin).
    by apply list_elem_of_lookup_2 with (length L). }
  assert (Hlenrs : length rs <= 254).
  { pose proof (length_runs_le_ids rs Hpos).
    assert (length (run_ids rs ++ slots n) <= length (seq 0 cap)).
    { apply submseteq_length, NoDup_submseteq; [done|].
      intros i Hi. apply elem_of_seq. apply Hmem in Hi. lia. }
    rewrite length_app, length_seq in *. lia. }
  set (first := first_free_record_id n).
  unfold dealloc_record. rewrite Hid. cbn [mbind option_bind].
  eexists id, _. split; [done|]. split; [done|]. split; [reflexivity|].
  match goal with |- wf _ _ ?m /\ _ => set (n' := m) end.
  assert (Hslots' : slots n' = take (length L) (slots n)).
  { subst n'. cbn [slots set_records_length set_slots set_first_free set_cell].
    by rewrite (drop_ge (slots n) (S (length L))), app_nil_r by lia. }
  assert (Hrecs' : node_records n' = Some L).
  { unfold node_records. rewrite Hslots'.
    change (mapM (record (set_cell n id (Free 1 first))) (take (length L) (slots n)) = Some L).
    rewrite mapM_record_set_cell.
    - apply mapM_Some_2. apply mapM_Some_1 in HrL. apply Forall2_take with (n := length L) in HrL.
      by rewrite take_app_length in HrL.
    - intros Hin. pose proof (free_list_ok_NoDup_slots n rs Hok) as Hnds.
      rewrite Hsl in Hnds. apply NoDup_app in Hnds as (_ & Hdisj & _).
      apply (Hdisj id Hin). by apply list_elem_of_singleton. }
  split.
  - split; [done|]. split.
    { subst n'. cbn [heap set_records_length set_slots set_first_free set_cell]. by rewrite length_insert. }
    split.
    { rewrite Hslots'. subst n'. cbn [records_length set_records_length set_slots set_first_free set_cell].
      rewrite length_take. lia. }
    split.
    + exists ((id, 1) :: rs). apply (free_list_ok_perm n n' rs _ Hok).
      * subst n'. cbn [heap first_free_record_id set_records_length set_slots set_first_free set_cell].
        rewrite free_runs_unfold.
        rewrite (proj2 (Nat.eqb_neq id invalid) ltac:(unfold invalid; lia)).
        rewrite list_lookup_insert_eq by lia.
        rewrite (free_runs_fuel rs 256 255).
        -- done.
        -- apply free_runs_insert; [done|]. intros Hin. by apply Hidrs, run_heads_in_ids.
        -- lia.
      * constructor; [simpl; lia|done].
      * rewrite Hslots'. unfold run_ids at 1. cbn [flat_map fst snd seq app]. fold (run_ids rs).
        rewrite Hsl at 2. rewrite app_assoc. by rewrite <- Permutation_cons_append.
    + exists L. split; [done|].
      rewrite map_app in Hs. by apply StronglySorted_app in Hs as (_ & ? & _).
  - split; [done|]. split; [done|].
    subst n'. cbn [records_length set_records_length set_slots set_first_free set_cell]. lia.
Qed.

Lemma pop_rightest_record_spec (n : node) L x :
  wf key_le cap n -> node_records n = Some (L ++ [x]) ->
  exists n', pop_rightest_record n = Some (x, n') /\
    wf key_le cap n' /\ node_records n' = Some L /\ hdr n' = hdr n.
Proof.
  intros Hwf Hr.
  destruct (dealloc_last n L x Hwf Hr) as (id & n' & Hid & Hrec & Hd & Hwf' & Hr' & Hh' & _).
  exists n'. split; [|done].
  pose proof Hwf as (_ & _ & Hrl & _).
  pose proof (node_records_length n _ Hr) as Hlen. rewrite length_app in Hlen. simpl in Hlen.
  unfold pop_rightest_record, is_empty.
  rewrite (proj2 (Nat.eqb_neq (records_length n) 0)) by lia.
  rewrite Hid. cbn [mbind option_bind]. rewrite Hrec. cbn [mbind option_bind].
  by rewrite Hd.
Qed.

(** ** The two branches of [put] *)

Lemma put_fresh_eq (n : node) recs off k v :
  node_records n = Some recs -> records_length n = length (slots n) ->
  lower_bound key_le n k = Some off -> off <= length recs ->
  (forall y, recs !! off = Some y -> y.1 <> k) ->
  put key_le key_eqb n k v = insert_fresh n off k v.
Proof.
  intros Hr Hrl Hlb Hoff Hne. pose proof (node_records_length n recs Hr) as Hlen.
  unfold put. rewrite Hlb. cbn [mbind option_bind].
  destruct (Nat.eqb_spec off (records_length n)) as [->|Hneq]; [done|]. simpl.
  destruct (lookup_lt_is_Some_2 (slots n) off) as [id Hid]; [lia|].
  rewrite Hid. simpl. rewrite (node_records_lookup n recs off id Hr Hid).
  destruct (recs !! off) as [[k' x]|] eqn:E.
  - simpl. destruct (key_eqb k' k) eqn:Heqb; [|done].
    apply eqb_true in Heqb. by destruct (Hne (k', x) eq_refl).
  - apply lookup_ge_None in E. lia.
Qed.

Lemma put_hit_eq (n : node) recs off id k x v :
  node_records n = Some recs -> records_length n = length (slots n) ->
  lower_bound key_le n k = Some off -> slots n !! off = Some id ->
  recs !! off = Some (k, x) ->
  put key_le key_eqb n k v = Some (set_cell n id (Used k v)).
Proof.
  intros Hr Hrl Hlb Hid Hoff. unfold put. rewrite Hlb. cbn [mbind option_bind].
  pose proof Hid as Hlt. apply lookup_lt_Some in Hlt.
  rewrite (proj2 (Nat.eqb_neq off (records_length n))) by lia. simpl.
  rewrite Hid. simpl. rewrite (node_records_lookup n recs off id Hr Hid), Hoff. simpl.
  by rewrite (proj2 (eqb_true k k) eq_refl).
Qed.

(** A key below every key of [rhs] goes to its front. *)
Lemma put_front (rhs : node) R k v :
  wf key_le cap rhs -> node_records rhs = Some R -> length R < cap ->
  Forall (fun y => key_lt key_le k y.1) R ->
  exists r', put key_le key_eqb rhs k v = Some r' /\ wf key_le cap r' /\
    node_records r' = Some ((k, v) :: R) /\ hdr r' = hdr rhs.
Proof.
  intros Hwf Hr Hlt Hall. pose proof Hwf as (Hcap & Hheap & Hrl & [rs Hok] & [R0 [Hr0 Hs]]).
  rewrite Hr in Hr0. injection Hr0 as <-.
  pose proof (node_records_length rhs R Hr) as Hlen.
  destruct (lower_bound_spec rhs k R Hr Hrl Hs) as (off & Hlb & Hoff & Hlo & Hhi).
  assert (off = 0) as ->.
  { destruct off as [|off]; [done|]. exfalso.
    destruct (lookup_lt_is_Some_2 R 0) as [y Hy]; [lia|].
    pose proof (Hlo 0 y ltac:(lia) Hy) as H1.
    rewrite Forall_lookup in Hall. pose proof (Hall 0 y Hy) as H2.
    unfold key_lt in H1, H2. destruct (le_total k y.1) as [E|E]; congruence. }
  assert (Hne : forall y, R !! 0 = Some y -> y.1 <> k).
  { intros y Hy Heq. rewrite Forall_lookup in Hall. apply (lt_irrefl k).
    pose proof (Hall 0 y Hy) as H2. by rewrite Heq in H2. }
  rewrite (put_fresh_eq rhs R 0 k v Hr Hrl Hlb Hoff Hne).
  destruct (insert_fresh_spec rhs rs R 0 k v Hcap Hheap Hrl Hok Hr ltac:(lia) ltac:(lia))
    as (id & r' & Hins & _ & Hh & _ & _ & _ & _ & _ & Hr' & _).
  exists r'. split; [done|]. split; [|done].
  by apply (insert_fresh_wf rhs r' R 0 k v Hwf Hr).
Qed.

(** ** [split] *)

Lemma shift_times_spec (i : nat) : forall (n rhs : node) L R,
  wf key_le cap n -> wf key_le cap rhs ->
  node_records n = Some L -> node_records rhs = Some R ->
  StronglySorted (key_lt key_le) (map fst (L ++ R)) ->
  i <= length L -> length R + i <= cap ->
  exists n' r', shift_times key_le key_eqb cap i n rhs = Some (n', r') /\
    wf key_le cap n' /\ wf key_le cap r' /\
    node_records n' = Some (take (length L - i) L) /\
    node_records r' = Some (drop (length L - i) L ++ R) /\
    hdr n' = hdr n /\ hdr r' = hdr rhs.
Proof.
  induction i as [|i IH]; intros n rhs L R Hwn Hwr HrL HrR Hs Hi HR.
  - exists n, rhs. rewrite Nat.sub_0_r, take_ge, drop_ge by lia.
    split; [reflexivity|]. split; [done|]. split; [done|]. split; [done|]. split; [done|]. done.
  - destruct (exists_last (l := L) ltac:(intros ->; simpl in Hi; lia)) as [L' [x ->]].
    rewrite length_app in Hi |- *. simpl in Hi |- *.
    destruct (dealloc_last n L' x Hwn HrL) as (id & n1 & Hid & Hrec & Hd & Hw1 & Hr1 & Hh1 & _).
    pose proof Hwr as (_ & _ & Hrlr & _).
    pose proof (node_records_length rhs R HrR) as HlenR.
    pose proof Hwn as (_ & _ & Hrln & _).
    pose proof (node_records_length n _ HrL) as HlenL. rewrite length_app in HlenL. simpl in HlenL.
    assert (Hfront : Forall (fun y => key_lt key_le x.1 y.1) R).
    { rewrite <- app_assoc, map_app in Hs. simpl in Hs.
      apply StronglySorted_app in Hs as (_ & _ & Hs2).
      apply StronglySorted_cons in Hs2 as [Hall _].
      apply Forall_forall. intros y Hy. rewrite Forall_forall in Hall.
      apply Hall. by apply (list_elem_of_fmap_2 fst). }
    destruct x as [xk xv].
    destruct (put_front rhs R xk xv Hwr HrR ltac:(lia) Hfront)
      as (r1 & Hput & Hwr1 & Hrr1 & Hhr1).
    destruct (IH n1 r1 L' ((xk, xv) :: R) Hw1 Hwr1 Hr1 Hrr1) as (n' & r' & Hst & Hw' & Hwr' & Hr' & Hrr' & Hh' & Hhr');
      [by rewrite <- app_assoc in Hs|lia|simpl; lia|].
    exists n', r'. cbn [shift_times]. unfold shift_rightest_record, is_empty, is_full.
    rewrite (proj2 (Nat.eqb_neq (records_length n) 0)) by lia.
    rewrite (proj2 (Nat.eqb_neq (records_length rhs) cap)) by lia.
    rewrite Hid. cbn [mbind option_bind]. rewrite Hrec. cbn [mbind option_bind].
    rewrite Hput. cbn [mbind option_bind]. rewrite Hd. cbn [mbind option_bind].
    split; [done|]. split; [done|]. split; [done|].
    replace (length L' + 1 - S i) with (length L' - i) by lia.
    rewrite take_app_le, drop_app_le by lia. rewrite <- app_assoc.
    split; [done|]. split; [done|]. split; congruence.
Qed.

(** [split] moves the upper [len / 2] records, in order. *)
Lemma split_spec (n rhs : node) L :
  wf key_le cap n -> wf key_le cap rhs ->
  node_records n = Some L -> records_length rhs = 0 ->
  exists n' r', split key_le key_eqb cap n rhs = Some (n', r') /\
    wf key_le cap n' /\ wf key_le cap r' /\
    node_records n' = Some (take (length L - length L / 2) L) /\
    node_records r' = Some (drop (length L - length L / 2) L) /\
    hdr n' = hdr n /\ hdr r' = hdr rhs.
Proof.
  intros Hwn Hwr HrL Hempty.
  pose proof Hwr as (Hcap & Hheapr & Hrlr & _ & [R [HrR Hsr]]).
  pose proof Hwn as (_ & Hheapn & Hrln & [rs Hok] & [L0 [HrL0 Hs]]).
  rewrite HrL in HrL0. injection HrL0 as <-.
  pose proof (node_records_length rhs R HrR) as HlenR.
  destruct R; [|simpl in HlenR; lia].
  pose proof (node_records_length n L HrL) as HlenL.
  assert (Hle : length L <= cap).
  { pose proof Hok as (_ & _ & Hnd & Hmem).
    assert (length (slots n) <= length (seq 0 cap)); [|rewrite length_seq in *; lia].
    apply submseteq_length, NoDup_submseteq; [by apply NoDup_app in Hnd as (_&_&?)|].
    intros i Hi. apply elem_of_seq. enough (i < cap) by lia.
    apply Hmem, elem_of_app. by right. }
  assert (Hdiv : length L / 2 <= length L).
  { pose proof (Nat.div_mod_eq (length L) 2). pose proof (Nat.mod_upper_bound (length L) 2). lia. }
  destruct (shift_times_spec (length L / 2) n rhs L [] Hwn Hwr HrL HrR)
    as (n' & r' & Hst & Hw' & Hwr' & Hr' & Hrr' & Hh' & Hhr');
    [by rewrite app_nil_r|lia|cbn [length]; lia|].
  exists n', r'. unfold split, len. rewrite Hrln, <- HlenL.
  split; [done|]. rewrite app_nil_r in Hrr'.
  split; [done|]. split; [done|]. split; [done|]. split; [done|]. done.
Qed.

Lemma split_wf (n rhs n' r' : node) :
  wf key_le cap n -> wf key_le cap rhs -> records_length rhs = 0 ->
  split key_le key_eqb cap n rhs = Some (n', r') ->
  wf key_le cap n' /\ wf key_le cap r'.
Proof.
  intros Hwn Hwr Hempty Hsplit. pose proof Hwn as (_ & _ & _ & _ & [L [HrL _]]).
  destruct (split_spec n rhs L Hwn Hwr HrL Hempty) as (n2 & r2 & Hs2 & Hw2 & Hwr2 & _).
  rewrite Hsplit in Hs2. by injection Hs2 as <- <-.
Qed.

Lemma pop_wf (n n' : node) x :
  wf key_le cap n -> pop_rightest_record n = Some (x, n') -> wf key_le cap n'.
Proof.
  intros Hwn Hpop. pose proof Hwn as (_ & _ & Hrl & _ & [L [HrL _]]).
  destruct (decide (L = [])) as [->|Hne].
  - pose proof (node_records_length n [] HrL). unfold pop_rightest_record, is_empty in Hpop.
    rewrite Hrl in Hpop. by rewrite <- H0 in Hpop.
  - destruct (exists_last Hne) as [L' [y ->]].
    destruct (pop_rightest_record_spec n L' y Hwn HrL) as (n2 & Hp2 & Hw2 & _).
    rewrite Hpop in Hp2. by injection Hp2 as -> <-.
Qed.

Lemma set_hdr_wf (n : node) h : wf key_le cap n -> wf key_le cap (set_hdr n h).
Proof. done. Qed.

Lemma init_wf (n : node) :
  1 <= cap <= 255 -> length (heap n) = cap -> wf key_le cap (init cap n).
Proof.
  intros Hcap Hheap.
  split; [lia|]. split; [by cbn [heap init set_cell]; rewrite length_insert|].
  split; [done|]. split.
  - exists [(0, cap)]. split; [|split; [|split]].
    + cbn [heap first_free_record_id init set_cell]. rewrite free_runs_unfold. simpl.
      rewrite list_lookup_insert_eq by (simpl; lia). done.
    + constructor; [simpl; lia|constructor].
    + unfold run_ids. simpl. rewrite !app_nil_r. apply NoDup_seq.
    + intros i. unfold run_ids. simpl. rewrite !app_nil_r, elem_of_seq. lia.
  - exists []. split; [done|constructor].
Qed.

(** Every node reachable from [init()] is well-formed. *)
Lemma reachable_wf (n : node) :
  1 <= cap <= 255 -> reachable key_le key_eqb cap n -> wf key_le cap n.
Proof.
  intros Hcap. induction 1 as [n Hh|n n' k v _ IH _ Hput|n r n' r' _ IHn _ IHr _ Hr Hs
                              |n r n' r' _ IHn _ IHr _ Hr Hs|n n' x _ IH _ Hpop].
  - by apply init_wf.
  - by apply (put_wf n n' k v).
  - apply Nat.eqb_eq in Hr. by apply (split_wf n r n' r').
  - apply Nat.eqb_eq in Hr. by apply (split_wf n r n' r').
  - by apply (pop_wf n n' x).
Qed.

(** ** Claims on a single node *)

(** C6: on a well-formed node holding [len n >= 1] records and an empty
    node [rhs] of the same capacity, [split(rhs)] succeeds and moves the
    last [len n / 2] records (the largest keys) to [rhs], in order:
    [self] keeps [len n - len n / 2] records, [rhs] gets [len n / 2],
    the two record lists concatenate to the original one, and every key
    left in [self] is strictly below every key moved to [rhs]. *)
Theorem split_moves_upper_half (n rhs : node) :
  wf key_le cap n -> wf key_le cap rhs ->
  1 <= len n -> is_empty rhs = true ->
  exists n' r' L Lself Lrhs,
    node_records n = Some L /\
    split key_le key_eqb cap n rhs = Some (n', r') /\
    node_records n' = Some Lself /\ node_records r' = Some Lrhs /\
    Lself ++ Lrhs = L /\
    len n' = len n - len n / 2 /\ len r' = len n / 2 /\
    length Lrhs = len n / 2 /\
    (forall a b, a ∈ map fst Lself -> b ∈ map fst Lrhs -> key_lt key_le a b).
Proof.
  intros Hwn Hwr Hne Hempty. apply Nat.eqb_eq in Hempty.
  pose proof Hwn as (_ & _ & Hrln & _ & [L [HrL Hs]]).
  pose proof (node_records_length n L HrL) as HlenL.
  destruct (split_spec n rhs L Hwn Hwr HrL Hempty)
    as (n' & r' & Hsplit & Hw' & Hwr' & Hr' & Hrr' & _ & _).
  pose proof Hw' as (_ & _ & Hrl' & _). pose proof Hwr' as (_ & _ & Hrlr' & _).
  pose proof (node_records_length n' _ Hr') as Hl'.
  pose proof (node_records_length r' _ Hrr') as Hlr'.
  rewrite length_take in Hl'. rewrite length_drop in Hlr'.
  assert (Hdiv : length L / 2 <= length L).
  { pose proof (Nat.div_mod_eq (length L) 2). pose proof (Nat.mod_upper_bound (length L) 2). lia. }
  unfold len. rewrite Hrln, <- HlenL.
  exists n', r', L, (take (length L - length L / 2) L), (drop (length L - length L / 2) L).
  split; [done|]. split; [done|]. split; [done|]. split; [done|].
  split; [apply take_drop|].
  split; [lia|]. split; [lia|]. split; [rewrite length_drop; lia|].
  intros a b Ha Hb. rewrite <- (take_drop (length L - length L / 2) L), map_app in Hs.
  by apply (StronglySorted_app_1_elem_of _ _ _ a b Hs).
Qed.

(** C7: on a well-formed node with [len n < cap], [lower_bound] returns
    the left-most slot whose key is [>= k] (every key before it is [< k],
    every key from it on is [>= k]).  If a record with key [k] is stored,
    [put k v] overwrites that record's value in place, leaving
    [records_length] and the slot directory unchanged; otherwise it takes
    a record id from the free list, writes [(k, v)] there, inserts the id
    into the slot directory at the lower bound (shifting the rest right)
    and increments [records_length] by one. *)
Theorem put_spec (n : node) (k : K) (v : V) :
  wf key_le cap n -> len n < cap ->
  exists recs off, node_records n = Some recs /\
    lower_bound key_le n k = Some off /\ off <= len n /\
    (forall i y, i < off -> recs !! i = Some y -> key_lt key_le y.1 k) /\
    (forall i y, off <= i -> recs !! i = Some y -> key_le k y.1 = true) /\
    ((exists j x, recs !! j = Some (k, x)) ->
      exists id n', slots n !! off = Some id /\
        put key_le key_eqb n k v = Some n' /\
        records_length n' = records_length n /\ slots n' = slots n /\
        first_free_record_id n' = first_free_record_id n /\
        heap n' = <[id := Used k v]> (heap n)) /\
    (~ (exists j x, recs !! j = Some (k, x)) ->
      exists id ids n', free_ids n = Some ids /\ id ∈ ids /\
        put key_le key_eqb n k v = Some n' /\
        slots n' = take off (slots n) ++ id :: drop off (slots n) /\
        records_length n' = S (records_length n) /\
        heap n' !! id = Some (Used k v) /\
        node_records n' = Some (take off recs ++ (k, v) :: drop off recs)).
Proof.
  intros Hwf Hlt. pose proof Hwf as (Hcap & Hheap & Hrl & [rs Hok] & [recs [Hr Hs]]).
  pose proof (node_records_length n recs Hr) as Hlen. unfold len in *.
  destruct (lower_bound_spec n k recs Hr Hrl Hs) as (off & Hlb & Hoff & Hlo & Hhi).
  exists recs, off. split; [done|]. split; [done|]. split; [lia|].
  split; [done|]. split; [done|]. split.
  - intros (j & x & Hj).
    assert (j = off) as -> by exact (lower_bound_hit recs off k j x Hs Hlo Hhi Hj).
    destruct (lookup_lt_is_Some_2 (slots n) off) as [id Hid].
    { apply lookup_lt_Some in Hj. lia. }
    exists id, (set_cell n id (Used k v)). split; [done|].
    split; [by apply (put_hit_eq n recs off id k x v)|]. done.
  - intros Hnone.
    assert (Hne : forall y, recs !! off = Some y -> y.1 <> k).
    { intros [yk yv] Hy Heq. simpl in Heq. subst yk. apply Hnone. by exists off, yv. }
    rewrite (put_fresh_eq n recs off k v Hr Hrl Hlb Hoff Hne).
    destruct (insert_fresh_spec n rs recs off k v Hcap Hheap Hrl Hok Hr ltac:(lia) ltac:(lia))
      as (id & n' & Hins & Hid & _ & Hrl' & Hsl' & Hhp' & _ & _ & Hr' & _).
    exists id, (run_ids rs), n'. split.
    { unfold free_ids. destruct Hok as (Hf & _). by rewrite Hf. }
    done.
Qed.

(** C8: for every node reachable from [init()] by [put], [split] and
    [pop_righest_record] within their preconditions (with
    [1 <= cap <= 255]), the record ids on the free list, each entry
    covering [length] consecutive ids from its own, are disjoint from the
    ids in the slot directory, and together they are exactly
    [0 .. cap). *)
Theorem free_list_integrity (n : node) :
  1 <= cap <= 255 -> reachable key_le key_eqb cap n ->
  exists ids, free_ids n = Some ids /\
    (forall i, i ∈ ids -> i ∉ slots n) /\
    (forall i, i ∈ ids \/ i ∈ slots n <-> i < cap).
Proof.
  intros Hcap Hreach.
  destruct (reachable_wf n Hcap Hreach) as (_ & _ & _ & [rs (Hf & _ & Hnd & Hmem)] & _).
  exists (run_ids rs). split; [unfold free_ids; by rewrite Hf|]. split.
  - intros i Hi Hs. apply NoDup_app in Hnd as (_ & Hdisj & _). exact (Hdisj i Hi Hs).
  - intros i. rewrite <- elem_of_app. apply Hmem.
Qed.

(** ** Lookup after insertion *)

Lemma get_records (n : node) recs k :
  wf key_le cap n -> node_records n = Some recs ->
  exists r, get key_le key_eqb n k = Some r /\ (forall v, r = Some v <-> (k, v) ∈ recs).
Proof.
  intros Hwf Hr. pose proof Hwf as (_ & _ & Hrl & _ & [recs0 [Hr0 Hs]]).
  rewrite Hr in Hr0. injection Hr0 as <-.
  pose proof (node_records_length n recs Hr) as Hlen.
  destruct (lower_bound_spec n k recs Hr Hrl Hs) as (off & Hlb & Hoff & Hlo & Hhi).
  unfold get. rewrite Hlb. cbn [mbind option_bind].
  destruct (Nat.eqb_spec off (records_length n)) as [Heq|Hneq].
  - exists None. split; [done|]. intros v. split; [done|].
    intros Hin. apply list_elem_of_lookup in Hin as [j Hj].
    pose proof (lower_bound_hit recs off k j v Hs Hlo Hhi Hj) as ->.
    apply lookup_lt_Some in Hj. lia.
  - destruct (lookup_lt_is_Some_2 (slots n) off) as [id Hid]; [lia|].
    rewrite Hid. cbn [mbind option_bind].
    rewrite (node_records_lookup n recs off id Hr Hid).
    destruct (recs !! off) as [[k' x]|] eqn:Ek; [|apply lookup_ge_None in Ek; lia].
    cbn [mbind option_bind].
    destruct (key_eqb k' k) eqn:Heqb.
    + apply eqb_true in Heqb as ->. exists (Some x). split; [done|]. intros v. split.
      * intros [= <-]. by apply list_elem_of_lookup_2 with off.
      * intros Hin. apply list_elem_of_lookup in Hin as [j Hj].
        pose proof (lower_bound_hit recs off k j v Hs Hlo Hhi Hj) as ->.
        rewrite Ek in Hj. by injection Hj as ->.
    + exists None. split; [done|]. intros v. split; [done|]. intros Hin.
      apply list_elem_of_lookup in Hin as [j Hj].
      pose proof (lower_bound_hit recs off k j v Hs Hlo Hhi Hj) as ->.
      rewrite Ek in Hj. injection Hj as -> _.
      by rewrite (proj2 (eqb_true k k) eq_refl) in Heqb.
Qed.

Lemma get_records_eq (n n' : node) recs recs' k :
  wf key_le cap n -> wf key_le cap n' ->
  node_records n = Some recs -> node_records n' = Some recs' ->
  (forall w, (k, w) ∈ recs' <-> (k, w) ∈ recs) ->
  get key_le key_eqb n' k = get key_le key_eqb n k.
Proof.
  intros Hw Hw' Hr Hr' Hiff.
  destruct (get_records n recs k Hw Hr) as (r & Hg & Hr1).
  destruct (get_records n' recs' k Hw' Hr') as (r' & Hg' & Hr1').
  rewrite Hg, Hg'. f_equal.
  destruct r as [x|], r' as [x'|]; try done.
  - assert (Hx : Some x = Some x') by (apply Hr1, Hiff, Hr1'; done). congruence.
  - assert (Hx : @None V = Some x) by (apply Hr1', Hiff, Hr1; done). done.
  - assert (Hx : @None V = Some x') by (apply Hr1, Hiff, Hr1'; done). done.
Qed.

Lemma put_records (n : node) k v :
  wf key_le cap n -> len n < cap ->
  exists n' recs recs', put key_le key_eqb n k v = Some n' /\
    node_records n = Some recs /\ node_records n' = Some recs' /\
    (k, v) ∈ recs' /\ (forall k' w, k' <> k -> (k', w) ∈ recs' <-> (k', w) ∈ recs).
Proof.
  intros Hwf Hlt. pose proof Hwf as (Hcap & Hheap & Hrl & [rs Hok] & [recs [Hr Hs]]).
  pose proof (node_records_length n recs Hr) as Hlen. unfold len in *.
  destruct (lower_bound_spec n k recs Hr Hrl Hs) as (off & Hlb & Hoff & Hlo & Hhi).
  assert (Hfresh : (forall y, recs !! off = Some y -> y.1 <> k) ->
    exists n' recs', put key_le key_eqb n k v = Some n' /\
      node_records n = Some recs /\ node_records n' = Some recs' /\
      (k, v) ∈ recs' /\ (forall k' w, k' <> k -> (k', w) ∈ recs' <-> (k', w) ∈ recs)).
  { intros Hne.
    destruct (insert_fresh_spec n rs recs off k v Hcap Hheap Hrl Hok Hr ltac:(lia) ltac:(lia))
      as (id & n' & Hins & _ & _ & _ & _ & _ & _ & _ & Hr' & _).
    exists n', (take off recs ++ (k, v) :: drop off recs).
    split; [by rewrite (put_fresh_eq n recs off k v Hr Hrl Hlb Hoff Hne)|].
    split; [done|]. split; [done|].
    split; [apply elem_of_app; right; by left|].
    intros k' w Hk'.
    assert (Hrecs : (k', w) ∈ recs <-> (k', w) ∈ take off recs ++ drop off recs)
      by (by rewrite take_drop).
    rewrite Hrecs, !elem_of_app, elem_of_cons.
    split; [intros [?|[[= ??]|?]]; auto; congruence|intros [?|?]; auto]. }
  destruct (recs !! off) as [[k' x]|] eqn:Ek.
  2:{ destruct (Hfresh ltac:(done)) as (n' & recs' & ?). by exists n', recs, recs'. }
  destruct (key_eqb k' k) eqn:Heqb.
  2:{ destruct Hfresh as (n' & recs' & ?).
      { intros y Hy Heq. injection Hy as <-. simpl in Heq. subst k'.
        by rewrite (proj2 (eqb_true k k) eq_refl) in Heqb. }
      by exists n', recs, recs'. }
  apply eqb_true in Heqb as ->.
  destruct (lookup_lt_is_Some_2 (slots n) off) as [id Hid].
  { apply lookup_lt_Some in Ek. lia. }
  assert (Hoffl : off < length recs) by (by apply lookup_lt_Some in Ek).
  exists (set_cell n id (Used k v)), recs, (<[off := (k, v)]> recs).
  split; [by apply (put_hit_eq n recs off id k x v)|]. split; [done|].
  split; [apply (node_records_overwrite n recs off id k x v); try done;
          by apply (free_list_ok_NoDup_slots n rs)|].
  split.
  - apply list_elem_of_lookup_2 with off. by apply list_lookup_insert_eq.
  - intros k' w Hk'. rewrite !list_elem_of_lookup. split; intros [j Hj]; exists j.
    + destruct (decide (j = off)) as [->|Hne].
      * rewrite list_lookup_insert_eq in Hj by done. by injection Hj as ->.
      * by rewrite list_lookup_insert_ne in Hj.
    + destruct (decide (j = off)) as [->|Hne].
      * rewrite Ek in Hj. by injection Hj as ->.
      * by rewrite list_lookup_insert_ne.
Qed.

(** [BasicNode::get] on a well-formed node finds exactly the stored
    records: it returns [Some v] if and only if [(k, v)] is a record of
    the node, and [None] when no record has key [k]; it never hits an
    assertion. *)
Theorem get_finds_record (n : node) recs k :
  wf key_le cap n -> node_records n = Some recs ->
  exists r, get key_le key_eqb n k = Some r /\ (forall v, r = Some v <-> (k, v) ∈ recs).
Proof. apply get_records. Qed.

Lemma put_get (n : node) k v :
  wf key_le cap n -> len n < cap ->
  exists n', put key_le key_eqb n k v = Some n' /\
    get key_le key_eqb n' k = Some (Some v) /\
    (forall k', k' <> k -> get key_le key_eqb n' k' = get key_le key_eqb n k').
Proof.
  intros Hwf Hlt.
  destruct (put_records n k v Hwf Hlt) as (n' & recs & recs' & Hput & Hr & Hr' & Hin & Hframe).
  pose proof (put_wf n n' k v Hwf Hput) as Hwf'.
  exists n'. split; [done|]. split.
  - destruct (get_records n' recs' k Hwf' Hr') as (r & Hg & Hiff).
    rewrite Hg. f_equal. by apply Hiff.
  - intros k' Hk'. apply (get_records_eq n n' recs recs' k' Hwf Hwf' Hr Hr').
    intros w. by apply Hframe.
Qed.

Lemma put_len (n n' : node) k v :
  wf key_le cap n -> len n < cap -> put key_le key_eqb n k v = Some n' ->
  len n' <= S (len n).
Proof.
  intros Hwf Hlt Hput. pose proof Hwf as (Hcap & Hheap & Hrl & [rs Hok] & [recs [Hr Hs]]).
  pose proof (node_records_length n recs Hr) as Hlen. unfold len in *.
  destruct (lower_bound_spec n k recs Hr Hrl Hs) as (off & Hlb & Hoff & Hlo & Hhi).
  assert (Hfr : insert_fresh n off k v = Some n' -> records_length n' <= S (records_length n)).
  { intros Hins.
    destruct (insert_fresh_spec n rs recs off k v Hcap Hheap Hrl Hok Hr ltac:(lia) ltac:(lia))
      as (id & n'' & Hins' & _ & _ & Hl & _).
    rewrite Hins in Hins'. injection Hins' as <-. lia. }
  unfold put in Hput. rewrite Hlb in Hput. cbn [mbind option_bind] in Hput.
  destruct (Nat.eqb_spec off (records_length n)); simpl in Hput; [by apply Hfr|].
  destruct (slots n !! off) as [id|]; simpl in Hput; [|done].
  destruct (record n id) as [[k' x]|]; simpl in Hput; [|done].
  destruct (key_eqb k' k); [injection Hput as <-; simpl; lia|by apply Hfr].
Qed.

(** [BasicNode::put] then [BasicNode::get]: on a well-formed node with
    [len n < cap], [put(k, v)] succeeds, a later [get(k)] returns [v], and
    [get] of every other key returns what it returned before the put. *)
Theorem put_then_get (n : node) k v :
  wf key_le cap n -> len n < cap ->
  exists n', put key_le key_eqb n k v = Some n' /\
    get key_le key_eqb n' k = Some (Some v) /\
    (forall k', k' <> k -> get key_le key_eqb n' k' = get key_le key_eqb n k').
Proof. apply put_get. Qed.

(** ** Lower bound, rightmost record, free-list reuse, full nodes *)

Lemma lower_bound_record_spec (n : node) recs k :
  wf key_le cap n -> node_records n = Some recs ->
  (get_lower_bound_record key_le n k = Some None /\
     Forall (fun x => key_lt key_le x.1 k) recs) \/
  (exists pre r post, recs = pre ++ r :: post /\
     get_lower_bound_record key_le n k = Some (Some r) /\
     Forall (fun x => key_lt key_le x.1 k) pre /\ key_le k r.1 = true).
Proof.
  intros Hwf Hr. pose proof Hwf as (_ & _ & Hrl & _ & [recs0 [Hr0 Hs]]).
  rewrite Hr in Hr0. injection Hr0 as <-.
  pose proof (node_records_length n recs Hr) as Hlen.
  destruct (lower_bound_spec n k recs Hr Hrl Hs) as (off & Hlb & Hoff & Hlo & Hhi).
  unfold get_lower_bound_record. rewrite Hlb. cbn [mbind option_bind].
  destruct (Nat.eqb_spec off (records_length n)) as [Heq|Hneq].
  - left. split; [done|]. apply Forall_lookup_2. intros i x Hx.
    apply (Hlo i x); [|done]. apply lookup_lt_Some in Hx. lia.
  - right. destruct (lookup_lt_is_Some_2 (slots n) off) as [id Hid]; [lia|].
    destruct (lookup_lt_is_Some_2 recs off) as [r Hro]; [lia|].
    exists (take off recs), r, (drop (S off) recs).
    split; [by rewrite take_drop_middle|].
    rewrite Hid. cbn [mbind option_bind].
    rewrite (node_records_lookup n recs off id Hr Hid), Hro. split; [done|].
    split; [|by apply (Hhi off)].
    apply Forall_lookup_2. intros i x Hx. apply lookup_take_Some in Hx as [Hx Hi].
    exact (Hlo i x Hi Hx).
Qed.

(** [rightest_record] and [pop_righest_record] on a well-formed node whose
    records are [L ++ [x]]: both return [x], whose key is strictly above
    every other key; the pop leaves a well-formed node holding [L], one
    record shorter. *)
Theorem rightest_record_is_max (n : node) L x :
  wf key_le cap n -> node_records n = Some (L ++ [x]) ->
  rightest_record n = Some x /\
  (exists n', pop_rightest_record n = Some (x, n') /\ wf key_le cap n' /\
     node_records n' = Some L /\ len n' = len n - 1) /\
  Forall (fun y => key_lt key_le y.1 x.1) L.
Proof.
  intros Hwf Hr.
  destruct (dealloc_last n L x Hwf Hr) as (id & n' & Hid & Hrec & Hd & Hwf' & Hr' & _ & Hrl').
  pose proof Hwf as (_ & _ & Hrl & _ & [recs [Hr0 Hs]]).
  rewrite Hr in Hr0. injection Hr0 as <-.
  pose proof (node_records_length n _ Hr) as Hlen. rewrite length_app in Hlen. simpl in Hlen.
  assert (Hne : is_empty n = false) by (unfold is_empty; apply Nat.eqb_neq; lia).
  split; [|split].
  - unfold rightest_record. rewrite Hne, Hid. exact Hrec.
  - exists n'. unfold pop_rightest_record. rewrite Hne, Hid. cbn [mbind option_bind].
    rewrite Hrec. cbn [mbind option_bind]. rewrite Hd. unfold len. done.
  - apply Forall_lookup_2. intros i y Hy. pose proof (lookup_lt_Some _ _ _ Hy) as Hi.
    apply (StronglySorted_lookup _ (map fst (L ++ [x])) i (length L) y.1 x.1 Hs Hi).
    + by rewrite list_lookup_fmap, lookup_app_l, Hy.
    + by rewrite list_lookup_fmap, lookup_app_r, Nat.sub_diag by lia.
Qed.

(** The free list is a stack: on a well-formed node, after
    [dealloc_record] frees the record id at a slot offset, the next
    [alloc_new_record] hands out that same id and restores the head of the
    free list to what it was before the free. *)
Theorem dealloc_then_alloc (n : node) off :
  wf key_le cap n -> off < len n ->
  exists id n1 n2, slots n !! off = Some id /\ dealloc_record n off = Some n1 /\
    alloc_new_record n1 = Some (id, n2) /\
    first_free_record_id n2 = first_free_record_id n.
Proof.
  intros (Hcap & Hheap & Hrl & [rs (_ & _ & _ & Hmem)] & _) Hoff. unfold len in Hoff.
  destruct (lookup_lt_is_Some_2 (slots n) off) as [id Hid]; [lia|].
  assert (Hidc : id < cap).
  { apply Hmem, elem_of_app. right. by apply list_elem_of_lookup_2 with off. }
  unfold dealloc_record. rewrite Hid. cbn [mbind option_bind].
  eexists id, _, _. split; [done|]. split; [reflexivity|].
  unfold alloc_new_record.
  cbn [first_free_record_id heap set_records_length set_slots set_first_free set_cell].
  rewrite (proj2 (Nat.eqb_neq id invalid)) by (unfold invalid; lia).
  rewrite list_lookup_insert_eq by lia. simpl. split; reflexivity.
Qed.

(** [put] on a full well-formed node: for a key that is already stored it
    still succeeds, in place (slot directory and [records_length]
    unchanged), and [get] then returns the new value; for a key that is not
    stored the allocator's assertion fails. *)
Theorem full_node_put (n : node) recs k v :
  wf key_le cap n -> is_full cap n = true -> node_records n = Some recs ->
  ((exists x, (k, x) ∈ recs) ->
     exists n', put key_le key_eqb n k v = Some n' /\ slots n' = slots n /\
       records_length n' = records_length n /\
       get key_le key_eqb n' k = Some (Some v)) /\
  ((forall x, (k, x) ∉ recs) -> put key_le key_eqb n k v = None).
Proof.
  intros Hwf Hfull Hr. pose proof Hwf as (Hcap & Hheap & Hrl & [rs Hok] & [recs0 [Hr0 Hs]]).
  rewrite Hr in Hr0. injection Hr0 as <-.
  pose proof (node_records_length n recs Hr) as Hlen.
  apply Nat.eqb_eq in Hfull.
  destruct (lower_bound_spec n k recs Hr Hrl Hs) as (off & Hlb & Hoff & Hlo & Hhi).
  split.
  - intros [x Hin]. apply list_elem_of_lookup in Hin as [j Hj].
    pose proof (lower_bound_hit recs off k j x Hs Hlo Hhi Hj) as ->.
    destruct (lookup_lt_is_Some_2 (slots n) off) as [id Hid].
    { apply lookup_lt_Some in Hj. lia. }
    exists (set_cell n id (Used k v)).
    split; [by apply (put_hit_eq n recs off id k x v)|].
    split; [done|]. split; [done|].
    pose proof (overwrite_wf n recs off id k x v Hwf Hr Hid Hj) as Hwf'.
    pose proof (node_records_overwrite n recs off id k x v
                  (free_list_ok_NoDup_slots n rs Hok) Hr Hid Hj) as Hr'.
    destruct (get_records _ _ k Hwf' Hr') as (r & Hg & Hiff). rewrite Hg. f_equal.
    apply Hiff. apply list_elem_of_lookup_2 with off.
    apply list_lookup_insert_eq. by apply lookup_lt_Some in Hj.
  - intros Hnone.
    assert (Hne : forall y, recs !! off = Some y -> y.1 <> k).
    { intros [yk yv] Hy Heq. simpl in Heq. subst yk. apply (Hnone yv).
      by apply list_elem_of_lookup_2 with off. }
    rewrite (put_fresh_eq n recs off k v Hr Hrl Hlb Hoff Hne).
    unfold insert_fresh. rewrite (alloc_new_record_full n rs Hok) by lia. done.
Qed.

Lemma init_facts (n : node) :
  1 <= cap <= 255 -> length (heap n) = cap ->
  is_empty (init cap n) = true /\ node_records (init cap n) = Some [] /\
  free_ids (init cap n) = Some (seq 0 cap) /\ wf key_le cap (init cap n) /\
  (forall k, get key_le key_eqb (init cap n) k = Some None).
Proof.
  intros Hcap Hheap. split; [done|]. split; [done|]. split; [|split; [by apply init_wf|]].
  - unfold free_ids. cbn [heap first_free_record_id init set_cell].
    rewrite free_runs_unfold. cbn [Nat.eqb invalid].
    rewrite list_lookup_insert_eq by lia. cbn [mbind option_bind].
    rewrite free_runs_unfold. cbn. by rewrite app_nil_r.
  - intros k. reflexivity.
Qed.

(** [init] on a page of [cap] record cells gives an empty well-formed
    node whose free list is one entry covering the ids [0 .. cap), and on
    which [get] misses every key. *)
Theorem init_empty (n : node) :
  1 <= cap <= 255 -> length (heap n) = cap ->
  is_empty (init cap n) = true /\ node_records (init cap n) = Some [] /\
  free_ids (init cap n) = Some (seq 0 cap) /\ wf key_le cap (init cap n) /\
  (forall k, get key_le key_eqb (init cap n) k = Some None).
Proof. apply init_facts. Qed.

End Facts.
End BasicNodeFacts.

(** The derived [PartialOrd] on byte arrays is a total order. *)
Module HashOrder.

Lemma hash_le_total (a b : Hash) : hash_le a b = true \/ hash_le b a = true.
Proof.
  revert b. induction a as [|x a IH]; intros [|y b]; simpl; auto.
  destruct (Z.ltb_spec x y), (Z.ltb_spec y x); auto; lia.
Qed.

Lemma hash_le_trans (a b c : Hash) :
  hash_le a b = true -> hash_le b c = true -> hash_le a c = true.
Proof.
  revert b c. induction a as [|x a IH]; intros [|y b] [|z c]; simpl; try done.
  destruct (Z.ltb_spec x y), (Z.ltb_spec y x), (Z.ltb_spec y z), (Z.ltb_spec z y),
    (Z.ltb_spec x z), (Z.ltb_spec z x); try done; try lia.
  assert (x = y) as -> by lia. assert (y = z) as -> by lia. apply IH.
Qed.

Lemma hash_le_antisym (a b : Hash) :
  hash_le a b = true -> hash_le b a = true -> a = b.
Proof.
  revert b. induction a as [|x a IH]; intros [|y b]; simpl; try done.
  destruct (Z.ltb_spec x y), (Z.ltb_spec y x); try done; try lia.
  intros H1 H2. assert (x = y) as -> by lia. f_equal. by apply IH.
Qed.

Lemma hash_order : BasicNode.key_order hash_le hash_eqb.
Proof.
  constructor.
  - intros a b. unfold hash_eqb. apply bool_decide_eq_true.
  - apply hash_le_total.
  - apply hash_le_trans.
  - apply hash_le_antisym.
Qed.

End HashOrder.

(** ** The pager keeps pages well-formed *)
Module TreeFacts.

Lemma preserves_ret {A} (a : A) (Q : A -> Prop) : Q a -> preserves (pret a) Q.
Proof. intros HQ s Hs. split; [done|]. by intros b [= <-]. Qed.

Lemma preserves_bind {A B} (m : PM A) (k : A -> PM B) (Q1 : A -> Prop) (Q : B -> Prop) :
  preserves m Q1 -> (forall a, Q1 a -> preserves (k a) Q) -> preserves (pbind m k) Q.
Proof.
  intros Hm Hk s Hs. unfold pbind. destruct (Hm s Hs) as [Hs' HQ1].
  destruct (m s) as [[a|e| |] s'] eqn:E; simpl in *;
    try (split; [done|by intros ? [=]]).
  exact (Hk a (HQ1 a eq_refl) s' Hs').
Qed.

Lemma preserves_weaken {A} (m : PM A) (Q Q' : A -> Prop) :
  preserves m Q -> (forall a, Q a -> Q' a) -> preserves m Q'.
Proof. intros Hm HQ s Hs. destruct (Hm s Hs) as [? HQa]. split; [done|]. eauto. Qed.

Lemma preserves_panic {A} (Q : A -> Prop) : preserves ppanic Q.
Proof. intros s Hs. split; [done|]. by intros ? [=]. Qed.

Lemma preserves_fail {A} e (Q : A -> Prop) : preserves (pfail e) Q.
Proof. intros s Hs. split; [done|]. by intros ? [=]. Qed.

Lemma preserves_out_of_fuel {A} (Q : A -> Prop) : preserves (fun s => (OutOfFuel, s)) Q.
Proof. intros s Hs. split; [done|]. by intros ? [=]. Qed.

Lemma preserves_plift {A} (o : option A) : preserves (plift o) (fun a => o = Some a).
Proof.
  destruct o as [a|]; [by apply preserves_ret|apply preserves_panic].
Qed.

Lemma preserves_read_buf id : preserves (read_buf id) content_wf.
Proof.
  intros s Hs. unfold read_buf. destruct (page_map s !! id) as [p|] eqn:E; simpl.
  - split; [done|]. intros a [= <-]. exact (proj1 Hs id p E).
  - split; [done|]. by intros ? [=].
Qed.

Lemma cache_insert_wf (s : pager) id c b :
  pager_wf s -> content_wf c ->
  forall id' p, <[id := mk_page c b]> (page_map s) !! id' = Some p -> content_wf (buf p).
Proof.
  intros [Hc _] Hwf id' p Hp. apply lookup_insert_Some in Hp as [[_ <-]|[_ Hp]]; [done|].
  exact (Hc id' p Hp).
Qed.

Lemma preserves_write_buf id c : content_wf c -> preserves (write_buf id c) (fun _ => True).
Proof.
  intros Hwf s Hs. unfold write_buf. destruct (page_map s !! id) as [p|] eqn:E; simpl.
  - split; [|done]. split; [by apply cache_insert_wf|apply (proj2 Hs)].
  - split; [done|]. by intros ? [=].
Qed.

Lemma preserves_make_dirty id : preserves (make_dirty id) (fun _ => True).
Proof.
  intros s Hs. unfold make_dirty. destruct (page_map s !! id) as [p|] eqn:E; simpl.
  - split; [|done]. split; [|apply (proj2 Hs)].
    apply cache_insert_wf; [done|]. exact (proj1 Hs id p E).
  - split; [done|]. by intros ? [=].
Qed.

Lemma preserves_sync_page id : preserves (sync_page id) (fun _ => True).
Proof.
  intros s Hs. unfold sync_page. destruct (page_map s !! id) as [p|] eqn:E; simpl.
  - pose proof (proj1 Hs id p E) as Hp.
    destruct (is_dirty p); simpl; [|done].
    split; [|done]. split; [by apply cache_insert_wf|].
    intros i c Hi. apply list_lookup_insert_Some in Hi as [(_ & <- & _)|[_ Hi]]; [done|].
    exact (proj2 Hs i c Hi).
  - split; [done|]. by intros ? [=].
Qed.

Lemma preserves_get_page id : preserves (get_page id) (fun _ => True).
Proof.
  intros s Hs. unfold get_page. destruct (page_map s !! id) as [p|] eqn:E; simpl; [done|].
  destruct (file s !! N.to_nat id) as [c|] eqn:Ef; simpl.
  - split; [|done]. split; [|apply (proj2 Hs)].
    apply cache_insert_wf; [done|]. exact (proj2 Hs _ c Ef).
  - split; [done|]. by intros ? [=].
Qed.

Lemma preserves_append : preserves append_empty_uninited_page (fun _ => True).
Proof.
  intros s Hs. unfold append_empty_uninited_page. simpl. split; [|done]. split.
  - by apply cache_insert_wf.
  - intros i c Hi. apply lookup_app_Some in Hi as [Hi|[_ Hi]]; [exact (proj2 Hs i c Hi)|].
    by apply list_lookup_singleton_Some in Hi as [_ <-].
Qed.

Lemma preserves_root_page_id : preserves BTree.root_page_id (fun _ => True).
Proof.
  unfold BTree.root_page_id. eapply preserves_bind; [apply preserves_read_buf|].
  intros c _. destruct c; try apply preserves_panic. by apply preserves_ret.
Qed.

Lemma leaf_cap_eq : leaf_cap = 99.
Proof. reflexivity. Qed.

Lemma internal_cap_eq : internal_cap = 110.
Proof. reflexivity. Qed.

Lemma leaf_init_wf : BasicNode.wf hash_le leaf_cap leaf_init.
Proof.
  apply BasicNodeFacts.init_wf; [rewrite leaf_cap_eq; lia|apply repeat_length].
Qed.

Lemma internal_init_wf r : BasicNode.wf hash_le internal_cap (internal_init r).
Proof.
  apply BasicNodeFacts.set_hdr_wf, BasicNodeFacts.init_wf;
    [rewrite internal_cap_eq; lia|apply repeat_length].
Qed.

Lemma node_put_wf {Hd V} cap (n n' : BasicNode.node Hd Hash V) k v :
  BasicNode.wf hash_le cap n -> node_put n k v = Some n' -> BasicNode.wf hash_le cap n'.
Proof. apply BasicNodeFacts.put_wf, HashOrder.hash_order. Qed.

Lemma inner_put_preserves (fuel : nat) : forall page key value,
  preserves (BTree.inner_put fuel page key value) (fun _ => True).
Proof.
  induction fuel as [|fuel IH]; intros page key value; cbn [BTree.inner_put].
  { apply preserves_out_of_fuel. }
  eapply preserves_bind; [apply preserves_read_buf|]. intros c Hc.
  destruct c as [r|node|node|]; try apply preserves_panic.
  - (* leaf *)
    destruct (BasicNode.is_full leaf_cap node).
    + eapply preserves_bind; [apply preserves_append|]. intros new_page _.
      eapply preserves_bind; [apply preserves_write_buf, leaf_init_wf|]. intros _ _.
      eapply preserves_bind; [apply preserves_plift|]. intros [node' new'] Hsplit.
      destruct (BasicNodeFacts.split_wf hash_le hash_eqb leaf_cap HashOrder.hash_order
                  node leaf_init node' new' Hc leaf_init_wf eq_refl Hsplit) as [Hw1 Hw2].
      eapply preserves_bind; [by apply preserves_write_buf|]. intros _ _.
      eapply preserves_bind; [by apply preserves_write_buf|]. intros _ _.
      eapply preserves_bind; [apply preserves_make_dirty|]. intros _ _.
      eapply preserves_bind; [apply preserves_make_dirty|]. intros _ _.
      eapply preserves_bind; [apply preserves_sync_page|]. intros _ _.
      eapply preserves_bind; [apply preserves_sync_page|]. intros _ _.
      eapply preserves_bind; [apply preserves_plift|]. intros [rk rv] _.
      by apply preserves_ret.
    + eapply preserves_bind; [apply preserves_plift|]. intros node' Hput.
      eapply preserves_bind; [apply preserves_write_buf|].
      { exact (node_put_wf leaf_cap node node' key value Hc Hput). }
      intros _ _.
      eapply preserves_bind; [apply preserves_make_dirty|]. intros _ _.
      eapply preserves_bind; [apply preserves_sync_page|]. intros _ _.
      by apply preserves_ret.
  - (* internal *)
    destruct (BasicNode.is_full internal_cap node).
    + eapply preserves_bind; [apply preserves_append|]. intros new_page _.
      eapply preserves_bind; [apply preserves_write_buf, internal_init_wf|]. intros _ _.
      eapply preserves_bind; [apply preserves_plift|]. intros [node1 new'] Hsplit.
      destruct (BasicNodeFacts.split_wf hash_le hash_eqb internal_cap HashOrder.hash_order
                  node (internal_init (BasicNode.hdr node)) node1 new' Hc
                  (internal_init_wf _) eq_refl Hsplit) as [Hw1 Hw2].
      eapply preserves_bind; [apply preserves_plift|]. intros [mid node2] Hpop.
      pose proof (BasicNodeFacts.pop_wf hash_le internal_cap node1 node2 mid Hw1 Hpop) as Hw3.
      eapply preserves_bind; [apply preserves_write_buf, BasicNodeFacts.set_hdr_wf, Hw3|]. intros _ _.
      eapply preserves_bind; [by apply preserves_write_buf|]. intros _ _.
      eapply preserves_bind; [apply preserves_sync_page|]. intros _ _.
      eapply preserves_bind; [apply preserves_sync_page|]. intros _ _.
      by apply preserves_ret.
    + eapply preserves_bind; [apply preserves_plift|]. intros [origin_key next_page_id] _.
      eapply preserves_bind; [apply preserves_get_page|]. intros next_page _.
      eapply preserves_bind; [apply IH|]. intros r _.
      destruct r as [new_key new_value|]; [|by apply preserves_ret].
      eapply preserves_bind; [apply preserves_read_buf|]. intros c' Hc'.
      eapply preserves_bind with (Q1 := BasicNode.wf hash_le internal_cap).
      { destruct c'; try apply preserves_panic. by apply preserves_ret. }
      intros node0 Hw0.
      eapply preserves_bind with (Q1 := BasicNode.wf hash_le internal_cap).
      { destruct origin_key as [ori_k|].
        - eapply preserves_bind; [apply preserves_plift|]. intros n1 Hn1.
          eapply preserves_weaken; [apply preserves_plift|]. intros n2 Hn2.
          apply (node_put_wf internal_cap n1 n2 new_key next_page_id); [|done].
          exact (node_put_wf internal_cap node0 n1 ori_k new_value Hw0 Hn1).
        - eapply preserves_weaken; [apply preserves_plift|]. intros n2 Hn2.
          apply (node_put_wf internal_cap (BasicNode.set_hdr node0 new_value) n2 new_key next_page_id);
            [by apply BasicNodeFacts.set_hdr_wf|done]. }
      intros node' Hw'.
      eapply preserves_bind; [by apply preserves_write_buf|]. intros _ _.
      eapply preserves_bind; [apply preserves_make_dirty|]. intros _ _.
      eapply preserves_bind; [apply preserves_sync_page|]. intros _ _.
      apply IH.
Qed.

Lemma put_preserves (fuel : nat) key value :
  preserves (BTree.put fuel key value) (fun _ => True).
Proof.
  unfold BTree.put.
  eapply preserves_bind; [apply preserves_root_page_id|]. intros root _.
  eapply preserves_bind; [apply preserves_get_page|]. intros root_page _.
  eapply preserves_bind; [apply inner_put_preserves|]. intros r _.
  destruct r as [new_key new_value|]; [|by apply preserves_ret].
  eapply preserves_bind; [apply preserves_append|]. intros parent_page _.
  eapply preserves_bind; [apply preserves_plift|]. intros parent' Hput.
  eapply preserves_bind; [apply preserves_write_buf|].
  { exact (node_put_wf internal_cap _ parent' new_key root (internal_init_wf new_value) Hput). }
  intros _ _.
  eapply preserves_bind; [by apply preserves_write_buf|]. intros _ _.
  eapply preserves_bind; [apply inner_put_preserves|]. intros _ _.
  by apply preserves_ret.
Qed.

Lemma new_init_preserves : preserves BTree.new_init (fun _ => True).
Proof.
  unfold BTree.new_init.
  eapply preserves_bind; [apply preserves_append|]. intros head_page _.
  eapply preserves_bind; [apply preserves_append|]. intros root_page _.
  eapply preserves_bind; [apply preserves_make_dirty|]. intros _ _.
  eapply preserves_bind; [by apply preserves_write_buf|]. intros _ _.
  eapply preserves_bind; [apply preserves_sync_page|]. intros _ _.
  eapply preserves_bind; [apply preserves_make_dirty|]. intros _ _.
  eapply preserves_bind; [apply preserves_write_buf, leaf_init_wf|]. intros _ _.
  apply preserves_sync_page.
Qed.

Lemma new_body_wf (s : pager) : pager_wf s -> pager_wf (snd (BTree.new_body s)).
Proof.
  intros Hs. unfold BTree.new_body.
  refine (proj1 ((_ : preserves _ (fun _ : unit => True)) s Hs)).
  eapply preserves_bind.
  - destruct (pages_len s =? 0); [apply new_init_preserves|by apply preserves_ret].
  - intros _ _. eapply preserves_bind; [apply preserves_get_page|]. intros h _.
    eapply preserves_bind; [apply preserves_read_buf|]. intros c _.
    destruct (head_check c); [by apply preserves_ret|apply preserves_fail].
Qed.

Lemma tree_reachable_wf (s : pager) : tree_reachable s -> pager_wf s.
Proof.
  induction 1 as [|s fuel k v _ IH].
  - apply new_body_wf. split.
    + intros id p Hp. cbn [page_map pager_new] in Hp. by rewrite lookup_empty in Hp.
    + intros i c Hc. cbn [file pager_new] in Hc. by rewrite lookup_nil in Hc.
  - exact (proj1 (put_preserves fuel k v s IH)).
Qed.

(** Well-formed nodes have strictly ascending keys. *)
Lemma StronglySorted_mono {A} (R R' : A -> A -> Prop) (l : list A) :
  (forall a b, R a b -> R' a b) -> StronglySorted R l -> StronglySorted R' l.
Proof.
  intros HR. induction 1 as [|a l _ IH Hall]; constructor; [done|].
  eapply Forall_impl; [exact Hall|]. exact (HR a).
Qed.

Lemma key_lt_hash_lt (a b : Hash) : BasicNode.key_lt hash_le a b -> hash_lt a b = true.
Proof.
  unfold BasicNode.key_lt, hash_lt, hash_eqb. intros Hba.
  destruct (HashOrder.hash_le_total a b) as [Hab|Hab]; [|by rewrite Hab in Hba].
  rewrite Hab. simpl. apply negb_true_iff, bool_decide_eq_false. intros ->.
  by rewrite Hab in Hba.
Qed.

Lemma wf_keys_ascending {Hd V} cap (n : BasicNode.node Hd Hash V) :
  BasicNode.wf hash_le cap n -> keys_ascending n.
Proof.
  intros (_ & _ & _ & _ & [recs [Hr Hs]]). exists recs. split; [done|].
  eapply StronglySorted_mono; [|exact Hs]. exact key_lt_hash_lt.
Qed.

Lemma content_wf_keys_ascending c : content_wf c -> page_keys_ascending c.
Proof. destruct c; simpl; try done; apply wf_keys_ascending. Qed.

(** C5: in every tree state reachable from a fresh tree by [BTree.put]
    (with any fuel, so also after a put that stopped half-way), every leaf and
    internal page, in the page cache as well as in the index file, holds its
    records in slot-directory order with strictly ascending keys under the
    lexicographic byte order; so no node holds two records with equal keys. *)
Theorem keys_strictly_ascending (s : pager) :
  tree_reachable s ->
  (forall id p, page_map s !! id = Some p -> page_keys_ascending (buf p)) /\
  (forall i c, file s !! i = Some c -> page_keys_ascending c).
Proof.
  intros Hr. destruct (tree_reachable_wf s Hr) as [Hc Hf]. split.
  - intros id p Hp. apply content_wf_keys_ascending. by eapply Hc.
  - intros i c Hi. apply content_wf_keys_ascending. by eapply Hf.
Qed.

Lemma keys_strictly_ascending_witness :
  let s := snd (BTree.put 64 (repeat 7%Z 32) 7%N (snd (BTree.new []))) in
  tree_reachable s /\
  (forall id p, page_map s !! id = Some p -> page_keys_ascending (buf p)) /\
  (forall i c, file s !! i = Some c -> page_keys_ascending c).
Proof.
  intros s. assert (Hr : tree_reachable s) by (apply tr_put, tr_fresh).
  split; [exact Hr|]. apply (keys_strictly_ascending s Hr).
Defined.

End TreeFacts.

Module InternalFacts.

(** [InternalNode::get] on a well-formed internal node routes a key [key]
    by the lower bound: when every stored key is below [key] it returns
    [(None, rightest_page_id)]; otherwise it returns the first record (in
    key order) whose key [k] is at least [key], as [(Some k, child)]. *)
Theorem internal_get_routes (n : internal_node) recs key :
  BasicNode.wf hash_le internal_cap n -> BasicNode.node_records n = Some recs ->
  (internal_get n key = Some (None, BasicNode.hdr n) /\
     Forall (fun x => hash_lt x.1 key = true) recs) \/
  (exists pre k c post, recs = pre ++ (k, c) :: post /\
     internal_get n key = Some (Some k, c) /\
     Forall (fun x => hash_lt x.1 key = true) pre /\ hash_le key k = true).
Proof.
  intros Hwf Hr.
  destruct (BasicNodeFacts.lower_bound_record_spec hash_le hash_eqb internal_cap
              HashOrder.hash_order n recs key Hwf Hr)
    as [[Hg Hall] | (pre & [k c] & post & Hrecs & Hg & Hpre & Hle)].
  - left. unfold internal_get. rewrite Hg. split; [done|].
    eapply Forall_impl; [exact Hall|]. intros x. apply TreeFacts.key_lt_hash_lt.
  - right. exists pre, k, c, post. unfold internal_get. rewrite Hg.
    split; [done|]. split; [done|]. split; [|done].
    eapply Forall_impl; [exact Hpre|]. intros x. apply TreeFacts.key_lt_hash_lt.
Qed.

End InternalFacts.

Module OffsetFacts.
Local Open Scope Z_scope.

Lemma land_255 a : Z.land a 255 = a mod 256.
Proof. change 255 with (Z.ones 8). rewrite Z.land_ones by lia. reflexivity. Qed.

Lemma le_digits_value (k s : nat) (m : Z) :
  foldr (fun x acc => x + 256 * acc) 0
    (map (fun i => Z.land (Z.shiftr m (8 * Z.of_nat i)) 255) (seq s k)) =
  Z.shiftr m (8 * Z.of_nat s) mod 2 ^ (8 * Z.of_nat k).
Proof.
  revert s. induction k as [|k IH]; intros s; cbn [seq map foldr].
  { by rewrite Z.mul_0_r, Z.pow_0_r, Z.mod_1_r. }
  rewrite IH, land_255.
  replace (8 * Z.of_nat (S s)) with (8 * Z.of_nat s + 8) by lia.
  rewrite <- Z.shiftr_shiftr by lia. rewrite (Z.shiftr_div_pow2 _ 8) by lia.
  replace (8 * Z.of_nat (S k)) with (8 + 8 * Z.of_nat k) by lia.
  rewrite Z.pow_add_r by lia. change (2 ^ 8) with 256.
  rewrite Z.rem_mul_r by (try lia; apply Z.pow_pos_nonneg; lia). reflexivity.
Qed.

Lemma le_digits_nonneg b :
  Forall (fun x => 0 <= x < 256) b -> 0 <= foldr (fun x acc => x + 256 * acc) 0 b.
Proof. induction 1; simpl; lia. Qed.

Lemma le_digit_at b i x :
  Forall (fun x => 0 <= x < 256) b -> b !! i = Some x ->
  Z.land (Z.shiftr (foldr (fun x acc => x + 256 * acc) 0 b) (8 * Z.of_nat i)) 255 = x.
Proof.
  intros Hb. revert i. induction Hb as [|y b Hy Hb IH]; intros i Hi; [done|].
  cbn [foldr]. pose proof (le_digits_nonneg b Hb) as Hv.
  destruct i as [|i]; simpl in Hi.
  - injection Hi as <-. rewrite Z.mul_0_r, Z.shiftr_0_r, land_255.
    rewrite (Z.mul_comm 256), Z.mod_add, Z.mod_small; lia.
  - replace (8 * Z.of_nat (S i)) with (8 + 8 * Z.of_nat i) by lia.
    rewrite <- Z.shiftr_shiftr by lia. rewrite (Z.shiftr_div_pow2 _ 8) by lia.
    change (2 ^ 8) with 256.
    rewrite (Z.mul_comm 256), Z.div_add, Z.div_small, Z.add_0_l by lia.
    by apply IH.
Qed.

Lemma from_to_bytes (n : N) :
  (n < 2 ^ 64)%N -> Database.offset_from_bytes (Database.offset_to_bytes n) = n.
Proof.
  intros Hn. unfold Database.offset_from_bytes, Database.offset_to_bytes.
  rewrite le_digits_value. cbn [Z.of_nat]. rewrite Z.mul_0_r, Z.shiftr_0_r.
  rewrite Z.mod_small; [apply N2Z.id|]. split; [lia|].
  change (8 * Z.of_nat 8) with 64. change (2 ^ 64) with (Z.of_N (2 ^ 64)%N). lia.
Qed.

(** [Offset::from_bytes] inverts [Offset::to_bytes]: every [u64] offset
    survives the 8-byte little-endian encoding. *)
Theorem offset_bytes_roundtrip (n : N) :
  (n < 2 ^ 64)%N -> Database.offset_from_bytes (Database.offset_to_bytes n) = n.
Proof. apply from_to_bytes. Qed.

(** [Offset::to_bytes] inverts [Offset::from_bytes]: 8 bytes read back
    as an offset and written again give the same 8 bytes. *)
Theorem offset_bytes_roundtrip_rev (b : list Z) :
  length b = 8%nat -> Forall (fun x => 0 <= x < 256) b ->
  Database.offset_to_bytes (Database.offset_from_bytes b) = b.
Proof.
  intros Hl Hb. unfold Database.offset_to_bytes, Database.offset_from_bytes.
  rewrite Z2N.id by (by apply le_digits_nonneg).
  apply list_eq. intros i. rewrite list_lookup_fmap.
  destruct (decide (i < 8)%nat) as [Hi|Hi].
  - rewrite lookup_seq_lt by done.
    destruct (lookup_lt_is_Some_2 b i) as [x Hx]; [lia|]. rewrite Hx. simpl.
    f_equal. by apply le_digit_at.
  - rewrite lookup_seq_ge, lookup_ge_None_2 by lia. done.
Qed.

End OffsetFacts.

Module HashFacts.

Lemma hex_code_eq d : (0 <= d < 16)%Z ->
  hex_code d = (if (d <? 10)%Z then 48 + d else 87 + d)%Z.
Proof.
  intros Hd. unfold hex_code, hex_digit.
  destruct (Z.ltb_spec d 10); rewrite nat_ascii_embedding by lia; lia.
Qed.

Lemma hex_value_code d : (0 <= d < 16)%Z -> hex_value (hex_code d) = Some d.
Proof.
  intros Hd. rewrite hex_code_eq by done. unfold hex_value.
  destruct (Z.ltb_spec d 10).
  - replace ((48 <=? 48 + d) && (48 + d <=? 57))%Z with true
      by (symmetry; apply andb_true_iff; split; apply Z.leb_le; lia).
    f_equal. lia.
  - replace ((48 <=? 87 + d) && (87 + d <=? 57))%Z with false
      by (symmetry; apply andb_false_iff; right; apply Z.leb_gt; lia).
    replace ((97 <=? 87 + d) && (87 + d <=? 102))%Z with true
      by (symmetry; apply andb_true_iff; split; apply Z.leb_le; lia).
    f_equal. lia.
Qed.

Lemma hex_code_range d : (0 <= d < 16)%Z -> (48 <= hex_code d < 128)%Z.
Proof. intros Hd. rewrite hex_code_eq by done. destruct (Z.ltb_spec d 10); lia. Qed.

Lemma byte_split x : (0 <= x < 256)%Z ->
  (0 <= Z.shiftr x 4 < 16)%Z /\ (0 <= Z.land x 15 < 16)%Z /\
  (Z.shiftr x 4 * 16 + Z.land x 15 = x)%Z.
Proof.
  intros Hx. rewrite Z.shiftr_div_pow2 by lia.
  change 15%Z with (Z.ones 4). rewrite Z.land_ones by lia. change (2 ^ 4)%Z with 16%Z.
  pose proof (Z.div_mod x 16). pose proof (Z.mod_pos_bound x 16).
  split; [split; [apply Z.div_pos|apply Z.div_lt_upper_bound]; lia|]. lia.
Qed.

Lemma str_bytes_hex_lower h : str_bytes (hex_lower h) = h ≫= hex_pair.
Proof. induction h as [|x h IH]; [done|]. cbn. f_equal. f_equal. exact IH. Qed.

Lemma u8_hex_pair x : (0 <= x < 256)%Z -> u8_from_str_radix16 (hex_pair x) = Some x.
Proof.
  intros Hx. destruct (byte_split x Hx) as (Hhi & Hlo & Heq).
  pose proof (hex_code_range _ Hhi) as Hr.
  unfold u8_from_str_radix16, hex_pair.
  replace ((hex_code (Z.shiftr x 4) =? 43) || (hex_code (Z.shiftr x 4) =? 45))%Z with false
    by (symmetry; apply orb_false_iff; split; apply Z.eqb_neq; lia).
  cbn [foldl]. rewrite !hex_value_code by done. cbn [mbind option_bind].
  replace ((0 * 16 + Z.shiftr x 4) * 16 + Z.land x 15)%Z with x by lia.
  replace (x <=? 255)%Z with true by (symmetry; apply Z.leb_le; lia). done.
Qed.

Lemma is_char_boundary_ascii b i :
  Forall (fun x => x < 128)%Z b -> i <= length b -> is_char_boundary b i = true.
Proof.
  intros Hb Hi. unfold is_char_boundary.
  destruct (Nat.eq_dec i (length b)) as [->|Hne].
  { by rewrite Nat.eqb_refl, orb_true_r. }
  destruct (lookup_lt_is_Some_2 b i) as [x Hx]; [lia|]. rewrite Hx.
  pose proof (Forall_lookup_1 _ _ _ _ Hb Hx) as Hlt. simpl in Hlt.
  replace (128 <=? x)%Z with false by (symmetry; apply Z.leb_gt; lia).
  by rewrite !orb_true_r.
Qed.

Lemma hex_pairs_ascii h : Forall (fun x => 0 <= x < 256)%Z h ->
  Forall (fun x => x < 128)%Z (h ≫= hex_pair).
Proof.
  induction 1 as [|x h Hx _ IH]; [constructor|]. cbn.
  destruct (byte_split x Hx) as (Hhi & Hlo & _).
  pose proof (hex_code_range _ Hhi). pose proof (hex_code_range _ Hlo).
  repeat constructor; [lia|lia|exact IH].
Qed.

Lemma hex_pairs_length h : length (h ≫= hex_pair) = 2 * length h.
Proof. induction h as [|x h IH]; [done|]. cbn. rewrite IH. lia. Qed.

Lemma hex_pairs_drop h j : drop (2 * j) (h ≫= hex_pair) = drop j h ≫= hex_pair.
Proof.
  revert h. induction j as [|j IH]; intros h; [done|].
  destruct h as [|x h]; [done|].
  replace (2 * S j) with (S (S (2 * j))) by lia. cbn. apply IH.
Qed.

Lemma str_slice_hex_pair h j x : Forall (fun x => 0 <= x < 256)%Z h -> h !! j = Some x ->
  str_slice (h ≫= hex_pair) (2 * j) (2 * j + 2) = Some (hex_pair x).
Proof.
  intros Hh Hj. pose proof (lookup_lt_Some _ _ _ Hj) as Hlt.
  pose proof (hex_pairs_ascii h Hh) as Ha. pose proof (hex_pairs_length h) as Hl.
  unfold str_slice.
  rewrite !is_char_boundary_ascii by (done || lia).
  replace (2 * j <=? 2 * j + 2) with true by (symmetry; apply Nat.leb_le; lia).
  replace (2 * j + 2 <=? length (h ≫= hex_pair)) with true by (symmetry; apply Nat.leb_le; lia).
  cbn [andb]. f_equal. rewrite hex_pairs_drop.
  rewrite (drop_S h x j Hj). replace (2 * j + 2 - 2 * j) with 2 by lia. done.
Qed.

Lemma hex_lower_parses h : length h = 32 -> Forall (fun x => 0 <= x < 256)%Z h ->
  hash_from_str (hex_lower h) = Done h.
Proof.
  intros Hlen Hh. cbv delta [hash_from_str] beta. lazy zeta.
  match goal with |- context [?go 32 (@nil Z)] =>
    assert (Hgo : forall i acc, i <= 32 -> acc = rev (take (32 - i) h) -> go i acc = Done h)
  end.
  { induction i as [|i IH]; intros acc Hi ->.
    - cbn -[take]. rewrite rev_involutive, take_ge by lia. done.
    - destruct (lookup_lt_is_Some_2 h (32 - S i)) as [x Hx]; [lia|].
      cbn -[str_slice u8_from_str_radix16 hex_pair Nat.sub Nat.mul take str_bytes hex_lower].
      pose proof (str_slice_hex_pair h (32 - S i) x Hh Hx) as Hs.
      rewrite <- str_bytes_hex_lower in Hs. rewrite Hs.
      rewrite u8_hex_pair by (exact (Forall_lookup_1 _ _ _ _ Hh Hx)).
      apply IH; [lia|]. replace (32 - i) with (S (32 - S i)) by lia.
      rewrite (take_S_r h (32 - S i) x Hx), rev_app_distr. done. }
  rewrite Hgo by (lia || done). rewrite str_bytes_hex_lower, hex_pairs_length, Hlen. done.
Qed.

Lemma fold_left_length {A B} (f : list A -> B -> list A) l st :
  (forall st x, length (f st x) = length st) -> length (fold_left f l st) = length st.
Proof.
  intros Hf. revert st. induction l as [|x l IH]; intros st; [done|]. simpl. by rewrite IH, Hf.
Qed.

Lemma compress_length hs block : length (Sha256.compress hs block) = length hs.
Proof.
  unfold Sha256.compress. lazy zeta. rewrite length_zip_with, fold_left_length; [lia|].
  intros st kw. do 8 (destruct st as [|? st]; [reflexivity|]). destruct st; reflexivity.
Qed.

Lemma word_bytes_length ws : length (flat_map Sha256.word_bytes ws) = 4 * length ws.
Proof.
  induction ws as [|w ws IH]; [done|].
  change (flat_map Sha256.word_bytes (w :: ws))
    with (Sha256.word_bytes w ++ flat_map Sha256.word_bytes ws).
  rewrite length_app, IH. simpl. lia.
Qed.

Lemma sha256_bytes d :
  length (Sha256.sha256 d) = 32 /\ Forall (fun x => 0 <= x < 256)%Z (Sha256.sha256 d).
Proof.
  unfold Sha256.sha256. lazy zeta. split.
  - rewrite word_bytes_length, fold_left_length; [reflexivity|]. apply compress_length.
  - apply Forall_forall. intros x Hx. apply list_elem_of_In, in_flat_map in Hx as (w & _ & Hx).
    unfold Sha256.word_bytes in Hx. apply in_map_iff in Hx as (i & <- & _).
    change 255%Z with (Z.ones 8). rewrite Z.land_ones by lia.
    apply Z.mod_pos_bound. lia.
Qed.

(** [Hash::from_str] inverts the lowercase [{:02x}] rendering of a hash
    ([Display for Hash], [hash_bytes_to_string]): the 64-character string
    of 32 bytes parses back to those bytes, with no error and no panic. *)
Theorem hash_display_parse h : length h = 32 -> Forall (fun x => 0 <= x < 256)%Z h ->
  hash_from_str (hex_lower h) = Done h.
Proof. apply hex_lower_parses. Qed.

(** Every hash [Database::gen_waste_hash] produces is accepted by
    [Hash::from_str], which returns the SHA-256 digest bytes. *)
Theorem gen_waste_hash_parses d : hash_from_str (gen_waste_hash d) = Done (Sha256.sha256 d).
Proof.
  destruct (sha256_bytes d) as [Hl Hr]. unfold gen_waste_hash. by apply hex_lower_parses.
Qed.

End HashFacts.

Module DataFacts.

Lemma file_write_spec f bs :
  Database.position (Database.file_write f bs) = Database.position f + length bs /\
  take (Database.position f) (Database.data_bytes (Database.file_write f bs)) =
    take (Database.position f) (Database.data_bytes f) ++
    repeat 0%Z (Database.position f - length (Database.data_bytes f)) /\
  take (length bs) (drop (Database.position f) (Database.data_bytes (Database.file_write f bs))) = bs /\
  Database.position f + length bs <= length (Database.data_bytes (Database.file_write f bs)).
Proof.
  destruct f as [d p]. unfold Database.file_write. cbn [Database.position Database.data_bytes].
  set (A := take p d ++ repeat 0%Z (p - length d)).
  assert (HA : length A = p) by (subst A; rewrite length_app, length_take, repeat_length; lia).
  rewrite app_assoc. fold A.
  split; [done|]. split; [by rewrite take_app_length'|].
  split.
  - rewrite drop_app_length' by done. by rewrite take_app_length'.
  - rewrite !length_app. lia.
Qed.

Lemma read_exact_at d p n :
  p + n <= length d ->
  Database.file_read_exact (Database.mk_data d p) n =
    (Done (take n (drop p d)), Database.mk_data d (p + n)).
Proof.
  intros H. unfold Database.file_read_exact. cbn [Database.position Database.data_bytes].
  by rewrite (proj2 (Nat.leb_le _ _) H).
Qed.

(** [Database::put] writes the record as its 8-byte length followed by
    the payload at the data file's cursor, whatever the index then does;
    so once the index maps a hash to the offset [put] recorded,
    [Database::get] of that hash returns exactly the payload. *)
Theorem put_then_read fuel bytes db h :
  (N.of_nat (length bytes) < 2 ^ 64)%N ->
  fst (indexer_get fuel h (Database.index (snd (Database.put fuel bytes db)))) =
    Done (Some (N.of_nat (Database.position (Database.data db)))) ->
  fst (Database.get fuel h (snd (Database.put fuel bytes db))) = Done bytes.
Proof.
  intros Hlen Hidx. set (db' := snd (Database.put fuel bytes db)) in *.
  set (f := Database.data db). set (p := Database.position f).
  set (sz := Database.offset_to_bytes (N.of_nat (length bytes))).
  set (f1 := Database.file_write f sz). set (f2 := Database.file_write f1 bytes).
  assert (Hdata : Database.data db' = f2).
  { subst db' f2 f1 sz f. unfold Database.put.
    destruct (indexer_put _ _ _ _) as [r q]. by destruct r. }
  assert (Hsz : length sz = 8) by reflexivity.
  destruct (file_write_spec f sz) as (Hp1 & Hpre1 & Hrd1 & Hl1).
  destruct (file_write_spec f1 bytes) as (Hp2 & Hpre2 & Hrd2 & Hl2).
  fold f1 in Hp1, Hpre1, Hrd1, Hl1. fold f2 in Hp2, Hpre2, Hrd2, Hl2.
  rewrite Hp1, Hsz in Hp2, Hpre2, Hrd2, Hl2. rewrite Hsz in Hrd1, Hl1.
  fold p in Hp1, Hpre1, Hrd1, Hl1, Hp2, Hpre2, Hrd2, Hl2.
  unfold Database.get. destruct (indexer_get fuel h (Database.index db')) as [r q].
  cbn [fst] in Hidx. subst r. cbn [to_inner_result]. rewrite Hdata, Nat2N.id.
  change (Database.position (Database.data db)) with p. rewrite read_exact_at by lia.
  assert (Hsize : take 8 (drop p (Database.data_bytes f2)) = sz).
  { rewrite take_drop_commute, Hpre2.
    replace (p + 8 - length (Database.data_bytes f1)) with 0 by lia.
    rewrite app_nil_r, <- take_drop_commute. exact Hrd1. }
  rewrite Hsize. subst sz. rewrite (OffsetFacts.from_to_bytes _ Hlen), Nat2N.id.
  rewrite read_exact_at by lia. rewrite Hrd2. done.
Qed.

Lemma hash_from_str_bad_len s : length (str_bytes s) <> 64%nat ->
  hash_from_str s = Failed "the length of str is not equal to HASH_LENGTH * 2".
Proof.
  intros H. apply Nat.eqb_neq in H. unfold hash_from_str. lazy zeta. rewrite H. reflexivity.
Qed.

(** A hash string whose UTF-8 length is not 64 bytes is rejected before
    the tree is touched: [Indexer::put] and [Indexer::get] fail with
    "turn to valid hash: the length of str is not equal to HASH_LENGTH * 2",
    [Database::get] fails with that message behind "get offset by hash: ",
    and none of them changes the pager or the database. *)
Theorem wrong_length_hash_rejected fuel s off (db : Database.database) :
  length (str_bytes s) <> 64%nat ->
  indexer_put fuel s off (Database.index db) =
    (Failed "turn to valid hash: the length of str is not equal to HASH_LENGTH * 2",
     Database.index db) /\
  indexer_get fuel s (Database.index db) =
    (Failed "turn to valid hash: the length of str is not equal to HASH_LENGTH * 2",
     Database.index db) /\
  Database.get fuel s db =
    (Failed ("get offset by hash: turn to valid hash: " +:+
             "the length of str is not equal to HASH_LENGTH * 2"), db).
Proof.
  intros H. unfold Database.get, indexer_put, indexer_get.
  rewrite (hash_from_str_bad_len s H). cbn [to_inner_result].
  destruct db as [d p]. split; [reflexivity|split; reflexivity].
Qed.

End DataFacts.

Module BTreeFacts.
Import Scenarios.

(** Runs the pager monad on a concrete page map: unfolds the primitives,
    reduces, resolves the lookups and rewrites with the node facts given. *)
Ltac pm_step := unfold pbind, read_buf, get_page, pret, plift,
  write_buf, make_dirty, sync_page, node_put, node_get;
  cbn [BTree.inner_put BTree.inner_get page_map file pages_len buf is_dirty N.to_nat];
  try simpl_map.
Ltac pm_run H1 H2 := do 12 (pm_step; try rewrite H1; try rewrite H2).

Lemma leaf_init_get k : node_get leaf_init k = Some None.
Proof.
  exact (proj2 (proj2 (proj2 (proj2 (BasicNodeFacts.init_facts hash_le hash_eqb leaf_cap
           (BasicNode.uninit leaf_cap tt) ltac:(vm_compute; lia) (repeat_length _ _))))) k).
Qed.


Lemma fresh_tree_eq : fresh_tree = leaf_root_tree leaf_init.
Proof. vm_compute. reflexivity. Qed.

Lemma leaf_root_put fuel (n n' : leaf_node) k v :
  BasicNode.len n < leaf_cap -> node_put n k v = Some n' ->
  BTree.put (S fuel) k v (leaf_root_tree n) = (Done tt, leaf_root_tree n').
Proof.
  intros Hlt Hput.
  assert (Hfull : BasicNode.is_full leaf_cap n = false)
    by (unfold BasicNode.is_full; apply Nat.eqb_neq; unfold BasicNode.len in Hlt; lia).
  unfold node_put in Hput.
  unfold leaf_root_tree, BTree.put, BTree.root_page_id, BTree.HEAD_PAGE_ID.
  pm_run Hfull Hput.
  do 2 f_equal.
Qed.

Lemma leaf_root_get fuel (n : leaf_node) k :
  fst (BTree.get (S fuel) k (leaf_root_tree n)) =
  match node_get n k with Some r => Done r | None => Panicked end.
Proof.
  unfold leaf_root_tree, BTree.get, BTree.root_page_id, BTree.HEAD_PAGE_ID.
  do 12 pm_step. unfold node_get. by destruct (BasicNode.get hash_le hash_eqb n k).
Qed.

Lemma leaf_root_puts fuel kvs : forall n : leaf_node,
  BasicNode.wf hash_le leaf_cap n -> BasicNode.len n + length kvs <= leaf_cap ->
  exists n', btree_puts (S fuel) kvs (leaf_root_tree n) = (Done tt, leaf_root_tree n') /\
    BasicNode.wf hash_le leaf_cap n' /\
    forall k, node_get n' k =
      match (list_to_map (rev kvs) : gmap Hash Offset) !! k with
      | Some v => Some (Some v)
      | None => node_get n k
      end.
Proof.
  induction kvs as [|[k v] kvs IH]; intros n Hwf Hlen.
  - exists n. split; [reflexivity|]. split; [done|]. intros k.
    cbn [rev list_to_map foldr]. by rewrite lookup_empty.
  - simpl in Hlen. assert (Hlt : BasicNode.len n < leaf_cap) by lia.
    destruct (BasicNodeFacts.put_get hash_le hash_eqb leaf_cap HashOrder.hash_order
                n k v Hwf Hlt) as (n1 & Hput & Hg1 & Ho1).
    pose proof (TreeFacts.node_put_wf leaf_cap n n1 k v Hwf Hput) as Hwf1.
    pose proof (BasicNodeFacts.put_len hash_le hash_eqb leaf_cap HashOrder.hash_order
                  n n1 k v Hwf Hlt Hput) as Hl1.
    destruct (IH n1 Hwf1 ltac:(lia)) as (n' & Hrun & Hwf' & Hg').
    exists n'. split; [|split; [done|]].
    + cbn [btree_puts]. unfold pbind. by rewrite (leaf_root_put fuel n n1 k v Hlt Hput).
    + intros k0. rewrite Hg'. cbn [rev]. rewrite fin_maps.list_to_map_app.
      destruct ((list_to_map (rev kvs) : gmap Hash Offset) !! k0) as [w|] eqn:E.
      * by rewrite (fin_maps.lookup_union_Some_l _ _ _ _ E).
      * rewrite (fin_maps.lookup_union_r _ _ _ E). cbn [list_to_map foldr fst snd].
        unfold node_get in *. destruct (decide (k0 = k)) as [->|Hne].
        -- by rewrite lookup_insert_eq, Hg1.
        -- rewrite lookup_insert_ne, lookup_empty by congruence. by apply Ho1.
Qed.


(** Up to [leaf_cap] (99) calls of [BTree::put] on a freshly created
    index all succeed, and afterwards [BTree::get] of a key returns the
    value of the last put of that key, and [None] for a key never put. *)
Theorem fresh_tree_puts_map fuel kvs :
  1 <= fuel -> length kvs <= leaf_cap ->
  exists s, btree_puts fuel kvs fresh_tree = (Done tt, s) /\
    forall k, fst (BTree.get fuel k s) = Done ((list_to_map (rev kvs) : gmap Hash Offset) !! k).
Proof.
  intros Hf Hl. destruct fuel as [|fuel]; [lia|].
  assert (H0 : BasicNode.len leaf_init = 0) by (vm_compute; reflexivity).
  destruct (leaf_root_puts fuel kvs leaf_init TreeFacts.leaf_init_wf
              ltac:(rewrite H0; lia)) as (n' & Hrun & _ & Hg).
  exists (leaf_root_tree n'). rewrite fresh_tree_eq. split; [exact Hrun|].
  intros k. rewrite leaf_root_get, Hg.
  destruct ((list_to_map (rev kvs) : gmap Hash Offset) !! k); [done|].
  by rewrite leaf_init_get.
Qed.

End BTreeFacts.

Module ScenarioFacts.
Import Scenarios.

Lemma get_ok_spec (s : pager) (i : nat) :
  get_ok s i = true -> fst (BTree.get FUEL (key_i i) s) = Done (Some (N.of_nat i)).
Proof.
  unfold get_ok. destruct (fst (BTree.get FUEL (key_i i) s)) as [[o|]| | |];
    try discriminate.
  intros Ho. apply N.eqb_eq in Ho. by subst.
Qed.

(** C1: a put issued after a get overwrites an earlier payload.  With the
    payloads "a", "b", "c": put("a") and put("b") return their hashes,
    get(H("a")) returns "a", put("c") returns its hash, and then get(H("b"))
    returns "c" instead of "b". *)
Theorem put_after_get_clobbers :
  put_get_put_trace =
    (Done (gen_waste_hash [97%Z]), Done (gen_waste_hash [98%Z]), Done [97%Z],
     Done (gen_waste_hash [99%Z]), Done [99%Z]).
Proof. vm_compute. reflexivity. Qed.

(** C2: inserting [(key_i, Offset(i))] for [i] in [0 .. 255) into a fresh
    tree succeeds, every key then reads back its offset, and the root has
    moved from the initial leaf (page 1) to an internal node. *)
Theorem internal_node_formation :
  fst run_255 = Done tt /\
  Forall (fun i => fst (BTree.get FUEL (key_i i) (snd run_255)) = Done (Some (N.of_nat i)))
    (seq 0 255) /\
  fst (BTree.root_page_id (snd run_255)) = Done 3%N /\
  match page_map (snd run_255) !! 3%N with
  | Some {| buf := CInternal _ |} => True
  | _ => False
  end.
Proof.
  split; [vm_compute; reflexivity|]. split; [|split; vm_compute; [reflexivity|exact I]].
  assert (Hall : forallb (get_ok (snd run_255)) (seq 0 255) = true)
    by (vm_compute; reflexivity).
  apply Forall_forall. intros i Hi. apply get_ok_spec.
  rewrite forallb_forall in Hall. apply Hall. by apply list_elem_of_In.
Qed.

(** C3: after 100 one-byte puts the payload [[2]] reads back, but after
    closing and reopening the database (which opens without error) the same
    get fails with "hash not found". *)
Theorem reopen_loses_payload :
  fst (db_puts FUEL payloads_100 fresh_db) = Done tt /\
  fst (Database.get FUEL (gen_waste_hash [2%Z]) db_100) = Done [2%Z] /\
  fst db_100_reopened = Done tt /\
  fst (Database.get FUEL (gen_waste_hash [2%Z]) (snd db_100_reopened)) =
    Failed "hash not found".
Proof. vm_compute. repeat split. Qed.

(** C4: after the 100 puts of [key_i] return, the cached head page names
    page 3 as root while the index file still names page 1, and the new root
    page 3 is cached clean as an internal node while the file holds it
    uninitialised. *)
Theorem root_promotion_not_synced :
  fst run_100 = Done tt /\
  page_map (snd run_100) !! 0%N = Some {| buf := CHead 3%N; is_dirty := false |} /\
  file (snd run_100) !! 0 = Some (CHead 1%N) /\
  match page_map (snd run_100) !! 3%N with
  | Some {| buf := CInternal _; is_dirty := false |} => True
  | _ => False
  end /\
  file (snd run_100) !! 3 = Some CUninit.
Proof. vm_compute. repeat split. Qed.

(** C9: a 64-character hash string holding a character that is not a hex
    digit makes [Indexer::put] and [Indexer::get] panic, and one with a sign
    character is accepted; only a wrong length gives the
    "turn to valid hash" error. *)
Theorem bad_hash_panics :
  fst (indexer_put FUEL zz_hash 0%N fresh_tree) = Panicked /\
  fst (indexer_get FUEL zz_hash fresh_tree) = Panicked /\
  fst (indexer_put FUEL plus0_hash 0%N fresh_tree) = Done tt /\
  fst (indexer_get FUEL plus0_hash fresh_tree) = Done None /\
  fst (indexer_get FUEL short_hash fresh_tree) =
    Failed "turn to valid hash: the length of str is not equal to HASH_LENGTH * 2".
Proof. vm_compute. repeat split. Qed.

(** C10: on a fresh database, get of the all-zero hash fails with exactly
    "hash not found"; but after put("a"), put("b"), get(H("a")), put("c"),
    get(H("b")) returns "c", not the stored bytes "b". *)
Theorem get_missing_and_stored :
  fst (Database.get FUEL zero_hash fresh_db) = Failed "hash not found" /\
  (let '(_, rb, _, _, gb) := put_get_put_trace in
   rb = Done (gen_waste_hash [98%Z]) /\ gb <> Done [98%Z]).
Proof. vm_compute. split; [reflexivity|]. split; [reflexivity|discriminate]. Qed.

End ScenarioFacts.

Module NodeWitnesses.
Import Scenarios.

Lemma small_node0_reachable : BasicNode.reachable hash_le hash_eqb small_cap small_node0.
Proof. apply BasicNode.reach_init. reflexivity. Qed.

Lemma small_node2_reachable : BasicNode.reachable hash_le hash_eqb small_cap small_node2.
Proof.
  apply (BasicNode.reach_put _ _ _ small_node1 small_node2 [1%Z] 10);
    [|vm_compute; reflexivity|vm_compute; reflexivity].
  apply (BasicNode.reach_put _ _ _ small_node0 small_node1 [2%Z] 20);
    [apply small_node0_reachable|vm_compute; reflexivity|vm_compute; reflexivity].
Qed.

Lemma small_node0_wf : BasicNode.wf hash_le small_cap small_node0.
Proof.
  apply (BasicNodeFacts.reachable_wf hash_le hash_eqb small_cap HashOrder.hash_order);
    [vm_compute; lia|apply small_node0_reachable].
Qed.

Lemma small_node2_wf : BasicNode.wf hash_le small_cap small_node2.
Proof.
  apply (BasicNodeFacts.reachable_wf hash_le hash_eqb small_cap HashOrder.hash_order);
    [vm_compute; lia|apply small_node2_reachable].
Qed.

Lemma split_moves_upper_half_witness :
  1 <= BasicNode.len small_node2 /\ BasicNode.is_empty small_node0 = true /\
  exists n' r' L Lself Lrhs,
    BasicNode.node_records small_node2 = Some L /\
    BasicNode.split hash_le hash_eqb small_cap small_node2 small_node0 = Some (n', r') /\
    BasicNode.node_records n' = Some Lself /\
    BasicNode.node_records r' = Some Lrhs /\
    Lself ++ Lrhs = L /\
    BasicNode.len n' = BasicNode.len small_node2 - BasicNode.len small_node2 / 2 /\
    BasicNode.len r' = BasicNode.len small_node2 / 2 /\
    length Lrhs = BasicNode.len small_node2 / 2 /\
    (forall a b, a ∈ map fst Lself -> b ∈ map fst Lrhs -> BasicNode.key_lt hash_le a b).
Proof.
  split; [vm_compute; lia|]. split; [vm_compute; reflexivity|].
  apply (BasicNodeFacts.split_moves_upper_half hash_le hash_eqb small_cap
           HashOrder.hash_order small_node2 small_node0);
    [apply small_node2_wf|apply small_node0_wf|vm_compute; lia|vm_compute; reflexivity].
Defined.

Lemma put_spec_witness :
  BasicNode.len small_node2 < small_cap /\
  exists recs off,
    BasicNode.node_records small_node2 = Some recs /\
    BasicNode.lower_bound hash_le small_node2 [1%Z] = Some off /\
    off <= BasicNode.len small_node2 /\
    (forall i y, i < off -> recs !! i = Some y -> BasicNode.key_lt hash_le y.1 [1%Z]) /\
    (forall i y, off <= i -> recs !! i = Some y -> hash_le [1%Z] y.1 = true) /\
    ((exists j x, recs !! j = Some ([1%Z], x)) ->
     exists id n', BasicNode.slots small_node2 !! off = Some id /\
       BasicNode.put hash_le hash_eqb small_node2 [1%Z] 11 = Some n' /\
       BasicNode.records_length n' = BasicNode.records_length small_node2 /\
       BasicNode.slots n' = BasicNode.slots small_node2 /\
       BasicNode.first_free_record_id n' = BasicNode.first_free_record_id small_node2 /\
       BasicNode.heap n' = <[id:=BasicNode.Used [1%Z] 11]> (BasicNode.heap small_node2)) /\
    (~ (exists j x, recs !! j = Some ([1%Z], x)) ->
     exists id ids n', BasicNode.free_ids small_node2 = Some ids /\ id ∈ ids /\
       BasicNode.put hash_le hash_eqb small_node2 [1%Z] 11 = Some n' /\
       BasicNode.slots n' = take off (BasicNode.slots small_node2) ++
                            id :: drop off (BasicNode.slots small_node2) /\
       BasicNode.records_length n' = S (BasicNode.records_length small_node2) /\
       BasicNode.heap n' !! id = Some (BasicNode.Used [1%Z] 11) /\
       BasicNode.node_records n' = Some (take off recs ++ ([1%Z], 11) :: drop off recs)).
Proof.
  split; [vm_compute; lia|].
  apply (BasicNodeFacts.put_spec hash_le hash_eqb small_cap HashOrder.hash_order
           small_node2 [1%Z] 11); [apply small_node2_wf|vm_compute; lia].
Defined.

Lemma free_list_integrity_witness :
  1 <= small_cap <= 255 /\
  exists ids, BasicNode.free_ids small_node2 = Some ids /\
    (forall i, i ∈ ids -> i ∉ BasicNode.slots small_node2) /\
    (forall i, i ∈ ids \/ i ∈ BasicNode.slots small_node2 <-> i < small_cap).
Proof.
  split; [vm_compute; lia|].
  apply (BasicNodeFacts.free_list_integrity hash_le hash_eqb small_cap HashOrder.hash_order
           small_node2); [vm_compute; lia|apply small_node2_reachable].
Defined.

End NodeWitnesses.

Module ExtraWitnesses.
Import Scenarios.

Lemma small_internal_wf : BasicNode.wf hash_le internal_cap small_internal.
Proof.
  apply (TreeFacts.node_put_wf internal_cap (internal_init 5%N) small_internal (key_i 3) 9%N);
    [apply TreeFacts.internal_init_wf|vm_compute; reflexivity].
Qed.

Lemma small_node4_reachable : BasicNode.reachable hash_le hash_eqb small_cap small_node4.
Proof.
  apply (BasicNode.reach_put _ _ _ small_node3 small_node4 [4%Z] 40);
    [|vm_compute; reflexivity|vm_compute; reflexivity].
  apply (BasicNode.reach_put _ _ _ small_node2 small_node3 [3%Z] 30);
    [apply NodeWitnesses.small_node2_reachable|vm_compute; reflexivity|vm_compute; reflexivity].
Qed.

Lemma small_node4_wf : BasicNode.wf hash_le small_cap small_node4.
Proof.
  apply (BasicNodeFacts.reachable_wf hash_le hash_eqb small_cap HashOrder.hash_order);
    [vm_compute; lia|apply small_node4_reachable].
Qed.

Lemma small_node2_records :
  BasicNode.node_records small_node2 = Some [([1%Z], 10); ([2%Z], 20)].
Proof. vm_compute. reflexivity. Qed.

Lemma get_finds_record_witness :
  BasicNode.wf hash_le small_cap small_node2 /\
  BasicNode.node_records small_node2 = Some [([1%Z], 10); ([2%Z], 20)] /\
  exists r, BasicNode.get hash_le hash_eqb small_node2 [2%Z] = Some r /\
    (forall v, r = Some v <-> ([2%Z], v) ∈ [([1%Z], 10); ([2%Z], 20)]).
Proof.
  split; [exact NodeWitnesses.small_node2_wf|]. split; [exact small_node2_records|].
  exact (BasicNodeFacts.get_finds_record hash_le hash_eqb small_cap HashOrder.hash_order
           small_node2 _ [2%Z] NodeWitnesses.small_node2_wf small_node2_records).
Defined.

Lemma put_then_get_witness :
  BasicNode.wf hash_le small_cap small_node2 /\ BasicNode.len small_node2 < small_cap /\
  exists n', BasicNode.put hash_le hash_eqb small_node2 [0%Z] 5 = Some n' /\
    BasicNode.get hash_le hash_eqb n' [0%Z] = Some (Some 5) /\
    (forall k', k' <> [0%Z] ->
       BasicNode.get hash_le hash_eqb n' k' = BasicNode.get hash_le hash_eqb small_node2 k').
Proof.
  assert (Hl : BasicNode.len small_node2 < small_cap) by (vm_compute; lia).
  split; [exact NodeWitnesses.small_node2_wf|]. split; [exact Hl|].
  exact (BasicNodeFacts.put_then_get hash_le hash_eqb small_cap HashOrder.hash_order
           small_node2 [0%Z] 5 NodeWitnesses.small_node2_wf Hl).
Defined.

Lemma rightest_record_is_max_witness :
  BasicNode.wf hash_le small_cap small_node2 /\
  BasicNode.node_records small_node2 = Some ([([1%Z], 10)] ++ [([2%Z], 20)]) /\
  BasicNode.rightest_record small_node2 = Some ([2%Z], 20) /\
  (exists n', BasicNode.pop_rightest_record small_node2 = Some (([2%Z], 20), n') /\
     BasicNode.wf hash_le small_cap n' /\
     BasicNode.node_records n' = Some [([1%Z], 10)] /\
     BasicNode.len n' = BasicNode.len small_node2 - 1) /\
  Forall (fun y => BasicNode.key_lt hash_le y.1 [2%Z]) [([1%Z], 10)].
Proof.
  split; [exact NodeWitnesses.small_node2_wf|]. split; [exact small_node2_records|].
  exact (BasicNodeFacts.rightest_record_is_max hash_le small_cap
           small_node2 [([1%Z], 10)] ([2%Z], 20)
           NodeWitnesses.small_node2_wf small_node2_records).
Defined.

Lemma dealloc_then_alloc_witness :
  BasicNode.wf hash_le small_cap small_node2 /\ 0 < BasicNode.len small_node2 /\
  exists id n1 n2, BasicNode.slots small_node2 !! 0 = Some id /\
    BasicNode.dealloc_record small_node2 0 = Some n1 /\
    BasicNode.alloc_new_record n1 = Some (id, n2) /\
    BasicNode.first_free_record_id n2 = BasicNode.first_free_record_id small_node2.
Proof.
  assert (Hl : 0 < BasicNode.len small_node2) by (vm_compute; lia).
  split; [exact NodeWitnesses.small_node2_wf|]. split; [exact Hl|].
  exact (BasicNodeFacts.dealloc_then_alloc hash_le small_cap
           small_node2 0 NodeWitnesses.small_node2_wf Hl).
Defined.

Lemma full_node_put_witness :
  let recs := [([1%Z], 10); ([2%Z], 20); ([3%Z], 30); ([4%Z], 40)] in
  BasicNode.wf hash_le small_cap small_node4 /\
  BasicNode.is_full small_cap small_node4 = true /\
  BasicNode.node_records small_node4 = Some recs /\
  ((exists x, ([3%Z], x) ∈ recs) ->
     exists n', BasicNode.put hash_le hash_eqb small_node4 [3%Z] 33 = Some n' /\
       BasicNode.slots n' = BasicNode.slots small_node4 /\
       BasicNode.records_length n' = BasicNode.records_length small_node4 /\
       BasicNode.get hash_le hash_eqb n' [3%Z] = Some (Some 33)) /\
  ((forall x, ([3%Z], x) ∉ recs) -> BasicNode.put hash_le hash_eqb small_node4 [3%Z] 33 = None).
Proof.
  intros recs.
  assert (Hf : BasicNode.is_full small_cap small_node4 = true) by (vm_compute; reflexivity).
  assert (Hr : BasicNode.node_records small_node4 = Some recs) by (vm_compute; reflexivity).
  split; [exact small_node4_wf|]. split; [exact Hf|]. split; [exact Hr|].
  exact (BasicNodeFacts.full_node_put hash_le hash_eqb small_cap HashOrder.hash_order
           small_node4 recs [3%Z] 33 small_node4_wf Hf Hr).
Defined.

Lemma init_empty_witness :
  let n := BasicNode.uninit small_cap tt : BasicNode.node unit Hash nat in
  1 <= small_cap <= 255 /\ length (BasicNode.heap n) = small_cap /\
  BasicNode.is_empty (BasicNode.init small_cap n) = true /\
  BasicNode.node_records (BasicNode.init small_cap n) = Some [] /\
  BasicNode.free_ids (BasicNode.init small_cap n) = Some (seq 0 small_cap) /\
  BasicNode.wf hash_le small_cap (BasicNode.init small_cap n) /\
  (forall k, BasicNode.get hash_le hash_eqb (BasicNode.init small_cap n) k = Some None).
Proof.
  intros n.
  assert (Hc : 1 <= small_cap <= 255) by (vm_compute; lia).
  assert (Hh : length (BasicNode.heap n) = small_cap) by (vm_compute; reflexivity).
  split; [exact Hc|]. split; [exact Hh|].
  exact (BasicNodeFacts.init_empty hash_le hash_eqb small_cap n Hc Hh).
Defined.

Lemma internal_get_routes_witness :
  BasicNode.wf hash_le internal_cap small_internal /\
  BasicNode.node_records small_internal = Some [(key_i 3, 9%N)] /\
  ((internal_get small_internal (key_i 2) = Some (None, BasicNode.hdr small_internal) /\
     Forall (fun x => hash_lt x.1 (key_i 2) = true) [(key_i 3, 9%N)]) \/
  (exists pre k c post, [(key_i 3, 9%N)] = pre ++ (k, c) :: post /\
     internal_get small_internal (key_i 2) = Some (Some k, c) /\
     Forall (fun x => hash_lt x.1 (key_i 2) = true) pre /\ hash_le (key_i 2) k = true)).
Proof.
  assert (Hr : BasicNode.node_records small_internal = Some [(key_i 3, 9%N)])
    by (vm_compute; reflexivity).
  split; [exact small_internal_wf|]. split; [exact Hr|].
  exact (InternalFacts.internal_get_routes small_internal _ (key_i 2) small_internal_wf Hr).
Defined.

Lemma offset_bytes_roundtrip_witness :
  (5 < 2 ^ 64)%N /\ Database.offset_from_bytes (Database.offset_to_bytes 5%N) = 5%N.
Proof.
  assert (H : (5 < 2 ^ 64)%N) by (vm_compute; reflexivity).
  split; [exact H|]. exact (OffsetFacts.offset_bytes_roundtrip 5%N H).
Defined.

Lemma offset_bytes_roundtrip_rev_witness :
  length [1; 2; 3; 4; 5; 6; 7; 200]%Z = 8 /\
  Forall (fun x => 0 <= x < 256)%Z [1; 2; 3; 4; 5; 6; 7; 200]%Z /\
  Database.offset_to_bytes (Database.offset_from_bytes [1; 2; 3; 4; 5; 6; 7; 200]%Z) =
    [1; 2; 3; 4; 5; 6; 7; 200]%Z.
Proof.
  assert (Hl : length [1; 2; 3; 4; 5; 6; 7; 200]%Z = 8) by reflexivity.
  assert (Hb : Forall (fun x => 0 <= x < 256)%Z [1; 2; 3; 4; 5; 6; 7; 200]%Z)
    by (repeat constructor; lia).
  split; [exact Hl|]. split; [exact Hb|].
  exact (OffsetFacts.offset_bytes_roundtrip_rev _ Hl Hb).
Defined.

Lemma hash_display_parse_witness :
  length (repeat 171%Z 32) = 32 /\ Forall (fun x => 0 <= x < 256)%Z (repeat 171%Z 32) /\
  hash_from_str (hex_lower (repeat 171%Z 32)) = Done (repeat 171%Z 32).
Proof.
  assert (Hl : length (repeat 171%Z 32) = 32) by reflexivity.
  assert (Hb : Forall (fun x => 0 <= x < 256)%Z (repeat 171%Z 32))
    by (repeat constructor; lia).
  split; [exact Hl|]. split; [exact Hb|].
  exact (HashFacts.hash_display_parse _ Hl Hb).
Defined.

Lemma put_then_read_witness :
  (N.of_nat (length [97%Z]) < 2 ^ 64)%N /\
  fst (indexer_get FUEL (gen_waste_hash [97%Z])
         (Database.index (snd (Database.put FUEL [97%Z] fresh_db)))) =
    Done (Some (N.of_nat (Database.position (Database.data fresh_db)))) /\
  fst (Database.get FUEL (gen_waste_hash [97%Z]) (snd (Database.put FUEL [97%Z] fresh_db))) =
    Done [97%Z].
Proof.
  assert (Hl : (N.of_nat (length [97%Z]) < 2 ^ 64)%N) by (vm_compute; reflexivity).
  assert (Hi : fst (indexer_get FUEL (gen_waste_hash [97%Z])
         (Database.index (snd (Database.put FUEL [97%Z] fresh_db)))) =
    Done (Some (N.of_nat (Database.position (Database.data fresh_db)))))
    by (vm_compute; reflexivity).
  split; [exact Hl|]. split; [exact Hi|].
  exact (DataFacts.put_then_read FUEL [97%Z] fresh_db _ Hl Hi).
Defined.

Lemma fresh_tree_puts_map_witness :
  1 <= 1 /\ length [(key_i 1, 1%N); (key_i 2, 2%N); (key_i 1, 3%N)] <= leaf_cap /\
  exists s, btree_puts 1 [(key_i 1, 1%N); (key_i 2, 2%N); (key_i 1, 3%N)] fresh_tree =
      (Done tt, s) /\
    forall k, fst (BTree.get 1 k s) =
      Done ((list_to_map (rev [(key_i 1, 1%N); (key_i 2, 2%N); (key_i 1, 3%N)])
               : gmap Hash Offset) !! k).
Proof.
  assert (Hf : 1 <= 1) by lia.
  assert (Hl : length [(key_i 1, 1%N); (key_i 2, 2%N); (key_i 1, 3%N)] <= leaf_cap)
    by (vm_compute; lia).
  split; [exact Hf|]. split; [exact Hl|].
  exact (BTreeFacts.fresh_tree_puts_map 1 _ Hf Hl).
Defined.

Lemma wrong_length_hash_rejected_witness :
  length (str_bytes "abc") <> 64 /\
  Database.get 1 "abc" fresh_db =
    (Failed ("get offset by hash: turn to valid hash: " +:+
             "the length of str is not equal to HASH_LENGTH * 2"), fresh_db).
Proof.
  assert (H : length (str_bytes "abc") <> 64) by (vm_compute; lia).
  split; [exact H|].
  exact (proj2 (proj2 (DataFacts.wrong_length_hash_rejected 1 "abc" 0%N fresh_db H))).
Defined.

End ExtraWitnesses.
